(** * Chebyshev spectral elements: the one-dimensional operator builder,
      the error stub and the conjugate-gradient stub of [final_project.py]

    The Python source computes with NumPy's binary64 numbers.  The
    definitions below are written once, over an abstract number type with
    the operations the program uses.  Most theorems read those operations
    as the operations of an ordered field: they establish the
    exact-arithmetic behaviour of the program, on the rationals ([Qc]) and
    on the reals ([R]), and say nothing about rounding.  Where a statement
    is about the bits the program returns, the same definitions are run on
    binary64 itself (Rocq's primitive floats).

    Library routines that the source calls ([numpy.zeros], [numpy.einsum],
    [numpy.polynomial.chebyshev.chebpts2], [numpy.polynomial.legendre.leggauss],
    [scipy.interpolate.lagrange], [scipy.misc.derivative]) are modelled from
    their library sources with the default arguments the program uses. *)

From Stdlib Require Import List ZArith Lia Bool Arith.
From Stdlib Require Import Ring Field.
From Stdlib Require Import QArith Qcanon.
From Stdlib Require Import Reals Lra.
From Stdlib Require PrimFloat.
Import ListNotations.

(** ** Python results: a value or a raised exception *)

Inductive exn : Type :=
| ValueError
| IndexError
| ZeroDivisionError
| InvalidDiscretization.  (* named by the specification; no code path raises it *)

Inductive result (A : Type) : Type :=
| Ok (a : A)
| Raise (e : exn).

Arguments Ok {A} a.
Arguments Raise {A} e.

Definition bind {A B : Type} (m : result A) (k : A -> result B) : result B :=
  match m with
  | Ok a => k a
  | Raise e => Raise e
  end.

Declare Scope py_scope.
Delimit Scope py_scope with py.
Notation "x <- m ;; k" := (bind m (fun x => k))
  (at level 61, m at next level, right associativity) : py_scope.
Notation "' pat <- m ;; k" := (bind m (fun x => match x with pat => k end))
  (at level 61, pat pattern, m at next level, right associativity) : py_scope.
Local Open Scope py_scope.

(** A [for] loop whose body may raise: the state is threaded left to right
    and the first exception ends the loop. *)
Fixpoint foldM {S I : Type} (body : S -> I -> result S) (xs : list I) (s : S)
  : result S :=
  match xs with
  | [] => Ok s
  | x :: xs' => s' <- body s x ;; foldM body xs' s'
  end.

(** [range(n)] for a Python integer [n]: empty when [n <= 0]. *)
Definition range (n : Z) : list nat := seq 0 (Z.to_nat n).

(** [l[i]] for a non-negative index. *)
Definition getitem {A : Type} (l : list A) (i : nat) : result A :=
  match nth_error l i with
  | Some a => Ok a
  | None => Raise IndexError
  end.

Fixpoint replace_nth {A : Type} (l : list A) (i : nat) (a : A) : list A :=
  match l, i with
  | [], _ => []
  | _ :: t, O => a :: t
  | h :: t, S i' => h :: replace_nth t i' a
  end.

(** [l[i] = a] for a non-negative index. *)
Definition setitem {A : Type} (l : list A) (i : nat) (a : A) : result (list A) :=
  if i <? length l then Ok (replace_nth l i a) else Raise IndexError.

(** [m[i, j] = a] on a two-dimensional array. *)
Definition setitem2 {A : Type} (m : list (list A)) (i j : nat) (a : A)
  : result (list (list A)) :=
  row <- getitem m i ;;
  row' <- setitem row j a ;;
  setitem m i row'.

(** ** The number interface *)

Class Num (F : Type) : Type := {
  zero : F;
  one : F;
  add : F -> F -> F;
  mul : F -> F -> F;
  sub : F -> F -> F;
  opp : F -> F;
  div : F -> F -> F;
  inv : F -> F;
  lt : F -> F -> Prop
}.

Declare Scope num_scope.
Delimit Scope num_scope with num.
Notation "0" := zero : num_scope.
Notation "1" := one : num_scope.
Notation "2" := (add one one) : num_scope.
Infix "+" := add : num_scope.
Infix "*" := mul : num_scope.
Infix "-" := sub : num_scope.
Infix "/" := div : num_scope.
Notation "- x" := (opp x) : num_scope.
Infix "<" := lt : num_scope.

Class OrderedField (F : Type) {N : Num F} : Prop := {
  num_field : field_theory zero one add mul sub opp div inv (@eq F);
  lt_irrefl : forall x : F, ~ lt x x;
  lt_trans : forall x y z : F, lt x y -> lt y z -> lt x z;
  lt_total : forall x y : F, lt x y \/ x = y \/ lt y x;
  add_lt_mono : forall x y z : F, lt x y -> lt (add x z) (add y z);
  mul_pos : forall x y : F, lt zero x -> lt zero y -> lt zero (mul x y)
}.

(** ** The program, over any number type *)

Section Program.

Context {F : Type} {N : Num F}.
Local Open Scope num_scope.

Definition vector : Type := list F.
Definition matrix : Type := list (list F).

(** The image of a Python integer among the numbers. *)
Fixpoint of_pos (p : positive) : F :=
  match p with
  | xH => 1
  | xO p' => 2 * of_pos p'
  | xI p' => 1 + 2 * of_pos p'
  end.

Definition of_Z (z : Z) : F :=
  match z with
  | Z0 => 0
  | Zpos p => of_pos p
  | Zneg p => - of_pos p
  end.

Fixpoint sum (l : list F) : F :=
  match l with
  | [] => 0
  | x :: t => x + sum t
  end.

(** *** numpy.zeros *)

(** [numpy.zeros((r, c))]: a negative dimension raises [ValueError]. *)
Definition zeros2 (r c : Z) : result matrix :=
  if ((r <? 0) || (c <? 0))%Z then Raise ValueError
  else Ok (repeat (repeat 0 (Z.to_nat c)) (Z.to_nat r)).

(** *** numpy.poly1d, as scipy.interpolate.lagrange uses it

    A polynomial is its list of coefficients, constant term first.
    ([poly1d] stores them leading term first and strips leading zeros; the
    program only ever calls the polynomial, and neither choice changes the
    value of a call.) *)

Definition poly1d : Type := list F.

(** [p(x)] *)
Fixpoint polyval (p : poly1d) (x : F) : F :=
  match p with
  | [] => 0
  | c :: p' => c + x * polyval p' x
  end.

Fixpoint polyadd (p q : poly1d) : poly1d :=
  match p, q with
  | [], _ => q
  | _, [] => p
  | a :: p', b :: q' => (a + b) :: polyadd p' q'
  end.

Definition polyscale (c : F) (p : poly1d) : poly1d := map (mul c) p.

(** [p / fac]: every coefficient divided by the scalar. *)
Definition polydiv_scalar (p : poly1d) (fac : F) : poly1d :=
  map (fun c => c / fac) p.

Fixpoint polymul (p q : poly1d) : poly1d :=
  match p with
  | [] => []
  | a :: p' => polyadd (polyscale a q) (0 :: polymul p' q)
  end.

(** [numpy.polyder]: the exact derivative of a polynomial. *)
Fixpoint polyder_from (k : F) (p : poly1d) : poly1d :=
  match p with
  | [] => []
  | c :: p' => (k * c) :: polyder_from (k + 1) p'
  end.

Definition polyder (p : poly1d) : poly1d :=
  match p with
  | [] => []
  | _ :: p' => polyder_from 1 p'
  end.

(** *** scipy.interpolate.lagrange

<<
    M = len(x)
    p = poly1d(0.0)
    for j in range(M):
        pt = poly1d(w[j])
        for k in range(M):
            if k == j:
                continue
            fac = x[j]-x[k]
            pt *= poly1d([1.0, -x[k]])/fac
        p += pt
    return p
>> *)

Definition lagrange_factor (x : vector) (j : nat) (pt : poly1d) (k : nat)
  : result poly1d :=
  if Nat.eqb k j then Ok pt
  else
    xj <- getitem x j ;;
    xk <- getitem x k ;;
    let fac := xj - xk in
    Ok (polymul pt (polydiv_scalar [- xk; 1] fac)).

Definition lagrange_term (x w : vector) (p : poly1d) (j : nat) : result poly1d :=
  wj <- getitem w j ;;
  pt <- foldM (lagrange_factor x j) (seq 0 (length x)) [wj] ;;
  Ok (polyadd p pt).

Definition lagrange (x w : vector) : result poly1d :=
  foldM (lagrange_term x w) (seq 0 (length x)) [0].

(** *** scipy.misc.derivative with its defaults [dx=1.0, n=1, order=3]

<<
    weights = array([-1,0,1])/2.0
    val = 0.0
    ho = order >> 1
    for k in range(order):
        val += weights[k]*func(x0+(k-ho)*dx,*args)
    return val / prod((dx,)*n,axis=0)
>>
    that is, a central difference over the fixed step [dx = 1]. *)

Definition derivative (func : F -> F) (x0 : F) : F :=
  let dx := 1 in
  let val0 := 0 in
  let val1 := val0 + (- (1) / 2) * func (x0 + (- (1)) * dx) in
  let val2 := val1 + (0 / 2) * func (x0 + 0 * dx) in
  let val3 := val2 + (1 / 2) * func (x0 + 1 * dx) in
  val3 / dx.

(** *** numpy.einsum('iq, q, jq', D, w, E)

    The output is indexed by [i] and [j]; [q] is summed over.  Operands whose
    [q] extents disagree raise [ValueError]. *)

Fixpoint sum3 (a w b : vector) : F :=
  match a, w, b with
  | x :: a', y :: w', z :: b' => x * y * z + sum3 a' w' b'
  | _, _, _ => 0
  end.

Definition rows_have (m : matrix) (n : nat) : bool :=
  forallb (fun r => Nat.eqb (length r) n) m.

Definition einsum_iq_q_jq (D : matrix) (w : vector) (E : matrix) : result matrix :=
  if rows_have D (length w) && rows_have E (length w)
  then Ok (map (fun Di => map (fun Ej => sum3 Di w Ej) E) D)
  else Raise ValueError.

(** [K + M] on arrays of one shape. *)
Fixpoint vadd (a b : vector) : vector :=
  match a, b with
  | x :: a', y :: b' => (x + y) :: vadd a' b'
  | _, _ => []
  end.

Fixpoint madd (a b : matrix) : matrix :=
  match a, b with
  | x :: a', y :: b' => vadd x y :: madd a' b'
  | _, _ => []
  end.

(** *** numpy's node and quadrature routines

    [chebpts2(npts)] raises [ValueError] unless [npts >= 2], and otherwise
    returns [cos(linspace(-pi, 0, npts))]; [leggauss(deg)] raises
    [ValueError] unless [deg >= 1], and otherwise returns the [deg] Gauss-
    Legendre points and weights.  The values are supplied by a [NumPy]
    record, since a cosine or a root of a Legendre polynomial is not in
    every field; the guards are written out here. *)

Record NumPy : Type := {
  chebpts2_values : nat -> vector;
  leggauss_values : nat -> vector * vector
}.

Variable np : NumPy.

Definition chebpts2 (npts : Z) : result vector :=
  if (npts <? 2)%Z then Raise ValueError
  else Ok (chebpts2_values np (Z.to_nat npts)).

Definition leggauss (deg : Z) : result (vector * vector) :=
  if (deg <=? 0)%Z then Raise ValueError
  else Ok (leggauss_values np (Z.to_nat deg)).

(** *** final_project.py *)

(** <<
    def get_e(n):
        e = np.zeros((n, n))
        for i in range(n):
            e[i, i] = 1
        return e
>> *)
Definition get_e (n : Z) : result matrix :=
  e <- zeros2 n n ;;
  foldM (fun e i => setitem2 e i i 1) (range n) e.

(** <<
    def get_basis(n, e, X, i):
        v = lagrange(X, e[i])
        return v
>> *)
Definition get_basis (n : Z) (e : matrix) (X : vector) (i : nat) : result poly1d :=
  ei <- getitem e i ;;
  lagrange X ei.

(** <<
    def compute_one_dimensional_matrices(n):
        e = get_e(n)
        X = np.polynomial.chebyshev.chebpts2(n)
        q, w = np.polynomial.legendre.leggauss(n)
        B = np.zeros((n, n))
        D = np.zeros((n, n))
        for i in range(0, n):
            v = get_basis(n, e, X, i)
            for alpha in range(0, n):
                B[i, alpha] = v(q[alpha])
                D[i, alpha] = derivative(v, q[alpha])
        K = np.einsum('iq, q, jq', D, w, D)
        M = np.einsum('iq, q, jq', B, w, B)
        A = K + M
        return K, M, A
>> *)
Definition fill_entry (v : poly1d) (q : vector) (i : nat)
  (BD : matrix * matrix) (alpha : nat) : result (matrix * matrix) :=
  let (B, D) := BD in
  qa <- getitem q alpha ;;
  B' <- setitem2 B i alpha (polyval v qa) ;;
  qa' <- getitem q alpha ;;
  D' <- setitem2 D i alpha (derivative (polyval v) qa') ;;
  Ok (B', D').

Definition fill_row (n : Z) (e : matrix) (X q : vector)
  (BD : matrix * matrix) (i : nat) : result (matrix * matrix) :=
  v <- get_basis n e X i ;;
  foldM (fill_entry v q i) (range n) BD.

(** The two evaluation matrices, as they stand when the loops end. *)
Definition evaluation_matrices (n : Z) : result (matrix * matrix) :=
  e <- get_e n ;;
  X <- chebpts2 n ;;
  '(q, w) <- leggauss n ;;
  B <- zeros2 n n ;;
  D <- zeros2 n n ;;
  foldM (fill_row n e X q) (range n) (B, D).

Definition compute_one_dimensional_matrices (n : Z)
  : result (matrix * matrix * matrix) :=
  e <- get_e n ;;
  X <- chebpts2 n ;;
  '(q, w) <- leggauss n ;;
  B <- zeros2 n n ;;
  D <- zeros2 n n ;;
  '(B, D) <- foldM (fill_row n e X q) (range n) (B, D) ;;
  K <- einsum_iq_q_jq D w D ;;
  M <- einsum_iq_q_jq B w B ;;
  let A := madd K M in
  Ok (K, M, A).

(** <<
    def compute_error_one_d(n, exact, rhs):
        # Replace this with you implementation
        error = 1/n
        return error
>>
    [1/n] on a Python integer raises [ZeroDivisionError] at [n = 0]. *)
Definition compute_error_one_d (n : Z) (exact rhs : F -> F) : result F :=
  if (n =? 0)%Z then Raise ZeroDivisionError
  else
    let error := 1 / of_Z n in
    Ok error.

End Program.

(** ** The conjugate-gradient entry point, over a store of arrays

    NumPy arrays are mutable objects that the caller and the callee share,
    so [cg] is modelled over a store: an array is named by its address and
    the store maps addresses to contents.  The operator [matvec] is a
    callback that may read, allocate, overwrite and raise. *)

Section Store.

Context {F : Type} {N : Num F}.

Definition addr : Type := nat.
Definition store : Type := list (list F).
Definition St (A : Type) : Type := store -> result (A * store).

(** [a.copy()]: a new array, at an address not in use, with the contents
    of [a]. *)
Definition ndarray_copy (a : addr) : St addr :=
  fun h => v <- getitem h a ;; Ok (length h, h ++ [v]).

(** <<
    def cg(matvec, b, x0, tol=1e-05, maxiter=10000):
        # inside this function, you can call matvec(b) to evaluate the matrix vector
        x = x0.copy()
        return x
>> *)
Definition cg (matvec : addr -> St addr) (b x0 : addr) (tol : F) (maxiter : Z)
  : St addr :=
  fun h =>
    '(x, h') <- ndarray_copy x0 h ;;
    Ok (x, h').

(** What [cg] is asked to make small: [b - matvec(x)] and its squared
    Euclidean norm ([||r|| <= tol] is [||r||^2 <= tol^2] for [tol >= 0]). *)
Fixpoint vsub (a b : list F) : list F :=
  match a, b with
  | x :: a', y :: b' => sub x y :: vsub a' b'
  | _, _ => []
  end.

Definition norm_sq (r : list F) : F := sum (map (fun x => mul x x) r).

Definition residual (A : list F -> list F) (b x : list F) : list F :=
  vsub b (A x).

End Store.

(** ** Two number types: the rationals, to run the program, and the reals *)

#[export] Instance Qc_Num : Num Qc := {
  zero := 0%Qc; one := 1%Qc;
  add := Qcplus; mul := Qcmult; sub := Qcminus; opp := Qcopp;
  div := Qcdiv; inv := Qcinv; lt := Qclt
}.

#[export] Instance R_Num : Num R := {
  zero := 0%R; one := 1%R;
  add := Rplus; mul := Rmult; sub := Rminus; opp := Ropp;
  div := Rdiv; inv := Rinv; lt := Rlt
}.

(** The Chebyshev points of the second kind that are rational, for runs on
    [Qc]; the Gauss rule with one point, and rational stand-ins with
    distinct points and positive weights for the others. *)
Definition qc (a : Z) (b : positive) : Qc := Q2Qc (a # b).

Definition np_Qc : NumPy (F := Qc) := {|
  chebpts2_values := fun n =>
    match n with
    | 2%nat => [qc (-1) 1; qc 1 1]
    | 3%nat => [qc (-1) 1; qc 0 1; qc 1 1]
    | 4%nat => [qc (-1) 1; qc (-1) 2; qc 1 2; qc 1 1]
    | _ => []
    end;
  leggauss_values := fun n =>
    match n with
    | 1%nat => ([qc 0 1], [qc 2 1])
    | 2%nat => ([qc (-4) 7; qc 4 7], [qc 1 1; qc 1 1])
    | 3%nat => ([qc (-7) 9; qc 0 1; qc 7 9], [qc 5 9; qc 8 9; qc 5 9])
    | 4%nat => ([qc (-6) 7; qc (-1) 3; qc 1 3; qc 6 7],
                [qc 1 3; qc 2 3; qc 2 3; qc 1 3])
    | _ => ([], [])
    end
|}.


(** ** The mathematical objects the program is meant to compute *)

Section Reference.

Context {F : Type} {N : Num F}.
Local Open Scope num_scope.
Local Abbreviation vector := (@vector F) (only parsing).
Local Abbreviation matrix := (@matrix F) (only parsing).
Local Abbreviation poly1d := (@poly1d F) (only parsing).
Local Abbreviation NumPy := (@NumPy F) (only parsing).

(** [x] is zero or positive. *)
Definition nonneg (x : F) : Prop := x = 0 \/ 0 < x.

Fixpoint prod (l : list F) : F :=
  match l with
  | [] => 1
  | x :: t => x * prod t
  end.

(** The [i]-th Lagrange cardinal function on the nodes [x], as a function:
    the product over [k <> i] of [(t - x_k) / (x_i - x_k)]. *)
Definition ell_factor (x : vector) (i : nat) (t : F) (k : nat) : F :=
  if Nat.eqb k i then 1 else (t - nth k x 0) / (nth i x 0 - nth k x 0).

Definition ell (x : vector) (i : nat) (t : F) : F :=
  prod (map (ell_factor x i t) (seq 0 (length x))).

(** [scipy.interpolate.lagrange] when no subscript is out of range: the
    same two loops, as left folds. *)
Definition lagrange_factor_pure (x : vector) (j : nat) (pt : poly1d) (k : nat)
  : poly1d :=
  if Nat.eqb k j then pt
  else polymul pt (polydiv_scalar [- nth k x 0; 1] (nth j x 0 - nth k x 0)).

Definition lagrange_term_pure (x w : vector) (p : poly1d) (j : nat) : poly1d :=
  polyadd p (fold_left (lagrange_factor_pure x j) (seq 0 (length x)) [nth j w 0]).

Definition lagrange_poly (x w : vector) : poly1d :=
  fold_left (lagrange_term_pure x w) (seq 0 (length x)) [0].

(** Division of [p] by [t - r], by Horner's rule: quotient and remainder. *)
Fixpoint horner (p : poly1d) (r : F) : poly1d * F :=
  match p with
  | [] => ([], 0)
  | c :: p' =>
      let (q, v) := horner p' r in
      (match p' with [] => [] | _ :: _ => v :: q end, c + r * v)
  end.

(** Row [i] of the [n] by [n] identity, and the identity. *)
Definition unit_vector (n i : nat) : vector := replace_nth (repeat 0 n) i 1.

Definition identity (n : nat) : matrix := map (unit_vector n) (seq 0 n).

(** The [i]-th basis polynomial on the nodes [X]. *)
Definition basis_poly (X : vector) (i : nat) : poly1d :=
  lagrange_poly X (unit_vector (length X) i).

Definition basis_polys (X : vector) : list poly1d :=
  map (basis_poly X) (seq 0 (length X)).

(** [m[i, j]], and matrices as linear and quadratic forms. *)
Definition entry (m : matrix) (i j : nat) : F := nth j (nth i m []) 0.

Definition symmetric (m : matrix) : Prop :=
  forall i j, entry m i j = entry m j i.

Definition transpose (n : nat) (m : matrix) : matrix :=
  map (fun j => map (fun row => nth j row 0) m) (seq 0 n).

(** [n] rows of [n] entries each. *)
Definition is_square (n : nat) (m : matrix) : Prop :=
  length m = n /\ forall r, In r m -> length r = n.

Fixpoint dot (a b : vector) : F :=
  match a, b with
  | x :: a', y :: b' => x * y + dot a' b'
  | _, _ => 0
  end.

Definition mat_vec (m : matrix) (x : vector) : vector :=
  map (fun row => dot row x) m.

Definition quad_form (m : matrix) (x : vector) : F := dot x (mat_vec m x).

(** The combination of the rows of [D] with coefficients [x], a vector of
    length [L]: component [a] is the sum over [i] of [x_i * D[i, a]]. *)
Fixpoint lincomb (L : nat) (x : vector) (D : matrix) : vector :=
  match x, D with
  | xi :: x', Di :: D' => vadd (map (mul xi) Di) (lincomb L x' D')
  | _, _ => repeat 0 L
  end.

(** The weighted Gram matrix that [einsum('iq, q, jq', D, w, D)] forms. *)
Definition gram (D : matrix) (w : vector) : matrix :=
  map (fun Di => map (fun Dj => sum3 Di w Dj) D) D.

(** The evaluation matrices of a family of polynomials at the points [q]:
    values, central differences as the program takes them, and exact
    derivatives. *)
Definition values_at (vs : list poly1d) (q : vector) : matrix :=
  map (fun v => map (polyval v) q) vs.

Definition differences_at (vs : list poly1d) (q : vector) : matrix :=
  map (fun v => map (derivative (polyval v)) q) vs.

Definition derivatives_at (vs : list poly1d) (q : vector) : matrix :=
  map (fun v => map (polyval (polyder v)) q) vs.

(** What NumPy documents of its two routines at size [n]: [n] nodes, [n]
    quadrature points and [n] weights; pairwise distinct nodes; pairwise
    distinct quadrature points; positive weights. *)
Definition numpy_shapes (np : NumPy) (n : nat) : Prop :=
  length (chebpts2_values np n) = n /\
  length (fst (leggauss_values np n)) = n /\
  length (snd (leggauss_values np n)) = n.

Definition nodes_distinct (np : NumPy) (n : nat) : Prop :=
  NoDup (chebpts2_values np n).

Definition points_distinct (np : NumPy) (n : nat) : Prop :=
  NoDup (fst (leggauss_values np n)).

Definition weights_positive (np : NumPy) (n : nat) : Prop :=
  Forall (fun wa => 0 < wa) (snd (leggauss_values np n)).

(** The matrices [B] and [D] that the program fills, and the matrix of
    exact derivatives, at size [n]. *)
Definition B_of (np : NumPy) (n : nat) : matrix :=
  values_at (basis_polys (chebpts2_values np n)) (fst (leggauss_values np n)).

Definition D_of (np : NumPy) (n : nat) : matrix :=
  differences_at (basis_polys (chebpts2_values np n)) (fst (leggauss_values np n)).

Definition D_exact (np : NumPy) (n : nat) : matrix :=
  derivatives_at (basis_polys (chebpts2_values np n)) (fst (leggauss_values np n)).

Definition K_of (np : NumPy) (n : nat) : matrix :=
  gram (D_of np n) (snd (leggauss_values np n)).

Definition M_of (np : NumPy) (n : nat) : matrix :=
  gram (B_of np n) (snd (leggauss_values np n)).

Definition A_of (np : NumPy) (n : nat) : matrix :=
  madd (K_of np n) (M_of np n).

End Reference.

(** ** NumPy's Chebyshev points over the reals

    [chebpts2(npts)] is [cos(linspace(-pi, 0, npts))], and
    [linspace(start, stop, num)[k]] is [start + k * ((stop - start) / (num - 1))]. *)

Definition linspace (start stop : R) (num k : nat) : R :=
  (start + INR k * ((stop - start) / INR (num - 1)))%R.

Definition chebpts2_R (npts : nat) : list R :=
  map (fun k => cos (linspace (- PI) 0 npts k)) (seq 0 npts).

(** NumPy over the reals, for any table of Gauss-Legendre rules. *)
Definition np_R (rule : nat -> list R * list R) : NumPy (F := R) := {|
  chebpts2_values := chebpts2_R;
  leggauss_values := rule
|}.

(** <<
    def exact_one_d(x):
        u = np.cos(np.pi * x)
        return u

    def rhs_one_d(x):
        rhs = np.cos(np.pi * x) * (1 + np.pi**2)
        return rhs
>> *)
Definition exact_one_d (x : R) : R :=
  let u := cos (PI * x) in
  u.

Definition rhs_one_d (x : R) : R :=
  let rhs := (cos (PI * x) * (1 + PI ^ 2))%R in
  rhs.

(** The 4-point Gauss-Legendre rule over the reals:
    points [±sqrt(3/7 ∓ (2/7) sqrt(6/5))], weights [(18 ± sqrt 30) / 36]. *)
Definition leggauss_R_4 : list R * list R :=
  ([ (- sqrt (3 / 7 + 2 / 7 * sqrt (6 / 5)))%R;
     (- sqrt (3 / 7 - 2 / 7 * sqrt (6 / 5)))%R;
     sqrt (3 / 7 - 2 / 7 * sqrt (6 / 5));
     sqrt (3 / 7 + 2 / 7 * sqrt (6 / 5)) ],
   [ ((18 - sqrt 30) / 36)%R; ((18 + sqrt 30) / 36)%R;
     ((18 + sqrt 30) / 36)%R; ((18 - sqrt 30) / 36)%R ]).

(** A store holding [b = [1.0]] at address 0 and [x0 = [0.0]] at address 1,
    and the default tolerance [1e-05]. *)
Definition store_b_x0 : store (F := Qc) := [[qc 1 1]; [qc 0 1]].

Definition default_tol : Qc := qc 1 100000.

(** ** Integrals of polynomials, totals and overwrites *)

Section Measures.

Context {F : Type} {N : Num F}.
Local Open Scope num_scope.
Local Abbreviation vector := (@vector F) (only parsing).
Local Abbreviation matrix := (@matrix F) (only parsing).
Local Abbreviation poly1d := (@poly1d F) (only parsing).
Local Abbreviation NumPy := (@NumPy F) (only parsing).

(** The antiderivative with constant term zero: the coefficient of [t^j]
    moves to [t^(j+1)] divided by [j + 1]. *)
Fixpoint polyprim_from (k : F) (p : poly1d) : poly1d :=
  match p with
  | [] => []
  | c :: p' => (c / k) :: polyprim_from (k + 1) p'
  end.

Definition polyprim (p : poly1d) : poly1d := 0 :: polyprim_from 1 p.

(** The integral of [p] over [[-1, 1]]. *)
Definition integrate (p : poly1d) : F :=
  polyval (polyprim p) 1 - polyval (polyprim p) (- (1)).

(** What NumPy documents of [leggauss(n)]: the rule integrates every
    polynomial of degree at most [2n - 1] (at most [2n] coefficients)
    exactly. *)
Definition quadrature_exact (np : NumPy) (n : nat) : Prop :=
  forall p : poly1d,
    (length p <= 2 * n)%nat ->
    dot (snd (leggauss_values np n)) (map (polyval p) (fst (leggauss_values np n)))
    = integrate p.

(** The sum of all entries of a matrix. *)
Definition total (m : matrix) : F := sum (map sum m).

(** [a[:] = v] on the store: the array at address [a] gets new contents. *)
Definition store_write (h : store (F := F)) (a : addr) (v : list F)
  : store (F := F) :=
  replace_nth h a v.

End Measures.

(** The 2-point Gauss-Legendre rule over the reals: points [±1/sqrt 3],
    weights 1. *)
Definition leggauss_R_2 : list R * list R :=
  ([ (- / sqrt 3)%R; (/ sqrt 3)%R ], [ 1%R; 1%R ]).

(** The first and second derivatives of [exact_one_d]. *)
Definition exact_one_d_prime (x : R) : R := (- PI * sin (PI * x))%R.

Definition exact_one_d_second (x : R) : R := (- PI ^ 2 * cos (PI * x))%R.

(** ** Binary64

    The number type the program really computes with: IEEE 754 binary64,
    round to nearest even.  It is no field: multiplication is commutative
    but not associative, and a quotient is rounded. *)

Section Binary64.

Import PrimFloat.

Definition float_Num : Num float :=
  Build_Num float 0%float 1%float
    PrimFloat.add PrimFloat.mul PrimFloat.sub PrimFloat.opp PrimFloat.div
    (fun x => PrimFloat.div 1%float x)
    (fun x y => PrimFloat.ltb x y = true).

(** NumPy at size 3, in binary64:
    [chebpts2(3) = [-1., 6.123233995736766e-17, 1.]] and
    [leggauss(3) = ([-0.7745966692414834, 0., 0.7745966692414834],
                    [0.5555555555555557, 0.8888888888888888, 0.5555555555555557])].
    The literals are written in hexadecimal so that each one is the
    binary64 number itself. *)
Definition np_binary64 : NumPy (F := float) := {|
  chebpts2_values := fun n =>
    match n with
    | 3%nat => [(-1)%float; 0x1.1a62633145c07p-54%float; 1%float]
    | _ => []
    end;
  leggauss_values := fun n =>
    match n with
    | 3%nat =>
        ([(-0x1.8c97ef43f7248p-1)%float; 0%float; 0x1.8c97ef43f7248p-1%float],
         [0x1.1c71c71c71c73p-1%float; 0x1.c71c71c71c71cp-1%float;
          0x1.1c71c71c71c73p-1%float])
    | _ => ([], [])
    end
|}.

(** The binary64 numbers that Python writes [0.1], [0.2] and [0.3]. *)
Definition b64_tenth : float := 0x1.999999999999ap-4%float.
Definition b64_fifth : float := 0x1.999999999999ap-3%float.
Definition b64_three_tenths : float := 0x1.3333333333333p-2%float.

End Binary64.

#[export] Existing Instance float_Num.
(** ** Loops and stores on lists *)

Lemma foldM_app {S I : Type} (body : S -> I -> result S) (xs ys : list I) (s : S) :
  foldM body (xs ++ ys) s = (s' <- foldM body xs s ;; foldM body ys s').
Proof.
  revert s; induction xs as [|x xs IH]; intros s; simpl; [reflexivity|].
  destruct (body s x); simpl; auto.
Qed.

(** A loop none of whose steps raises is a left fold. *)
Lemma foldM_pure {S I : Type} (body : S -> I -> result S) (f : S -> I -> S)
  (xs : list I) :
  (forall s x, In x xs -> body s x = Ok (f s x)) ->
  forall s, foldM body xs s = Ok (fold_left f xs s).
Proof.
  induction xs as [|x xs IH]; intros Hb s; simpl; [reflexivity|].
  rewrite Hb by (left; reflexivity); simpl.
  apply IH; intros; apply Hb; right; assumption.
Qed.

Lemma getitem_app_mid {A : Type} (pre post : list A) (a : A) :
  getitem (pre ++ a :: post) (length pre) = Ok a.
Proof.
  unfold getitem. rewrite nth_error_app2 by lia.
  rewrite Nat.sub_diag. reflexivity.
Qed.

Lemma getitem_nth {A : Type} (l : list A) (i : nat) (d : A) :
  (i < length l)%nat -> getitem l i = Ok (nth i l d).
Proof.
  intros Hi. unfold getitem.
  rewrite (nth_error_nth' l d Hi). reflexivity.
Qed.

Lemma replace_nth_app_mid {A : Type} (pre post : list A) (a b : A) :
  replace_nth (pre ++ a :: post) (length pre) b = pre ++ b :: post.
Proof.
  induction pre as [|x pre IH]; simpl; [reflexivity|]. rewrite IH. reflexivity.
Qed.

Lemma replace_nth_length {A : Type} (l : list A) (i : nat) (a : A) :
  length (replace_nth l i a) = length l.
Proof.
  revert i; induction l as [|x l IH]; intros [|i]; simpl; auto.
Qed.

Lemma setitem_app_mid {A : Type} (pre post : list A) (a b : A) :
  setitem (pre ++ a :: post) (length pre) b = Ok (pre ++ b :: post).
Proof.
  unfold setitem.
  replace (length pre <? length (pre ++ a :: post)) with true.
  - rewrite replace_nth_app_mid. reflexivity.
  - symmetry. apply Nat.ltb_lt. rewrite length_app. simpl. lia.
Qed.

Lemma setitem2_app_mid {A : Type} (rows_pre rows_post : list (list A))
  (pre post : list A) (a b : A) :
  setitem2 (rows_pre ++ (pre ++ a :: post) :: rows_post)
           (length rows_pre) (length pre) b
  = Ok (rows_pre ++ (pre ++ b :: post) :: rows_post).
Proof.
  unfold setitem2. rewrite getitem_app_mid. simpl.
  rewrite setitem_app_mid. simpl. apply setitem_app_mid.
Qed.

Lemma nth_replace_nth_eq {A : Type} (l : list A) (i : nat) (a d : A) :
  (i < length l)%nat -> nth i (replace_nth l i a) d = a.
Proof.
  revert i; induction l as [|x l IH]; intros [|i] Hi; simpl in *; try lia; auto.
  apply IH; lia.
Qed.

Lemma nth_replace_nth_neq {A : Type} (l : list A) (i j : nat) (a d : A) :
  i <> j -> nth j (replace_nth l i a) d = nth j l d.
Proof.
  revert i j; induction l as [|x l IH]; intros [|i] [|j] Hij; simpl;
    try reflexivity; try (exfalso; apply Hij; reflexivity).
  apply IH; lia.
Qed.

Lemma map_seq_nth {A : Type} (l : list A) (d : A) :
  map (fun i => nth i l d) (seq 0 (length l)) = l.
Proof.
  apply nth_ext with (d := d) (d' := d).
  - rewrite length_map, length_seq. reflexivity.
  - intros i Hi. rewrite length_map, length_seq in Hi.
    rewrite (nth_indep _ d (nth 0 l d)) by (rewrite length_map, length_seq; exact Hi).
    rewrite (map_nth (fun i => nth i l d) (seq 0 (length l)) 0%nat i).
    rewrite seq_nth by exact Hi. reflexivity.
Qed.

(** ** Arithmetic of an ordered field *)

Section Theory.

Context {F : Type} {N : Num F} {OF : OrderedField F}.
Local Open Scope num_scope.
Local Abbreviation vector := (@vector F) (only parsing).
Local Abbreviation matrix := (@matrix F) (only parsing).
Local Abbreviation poly1d := (@poly1d F) (only parsing).
Local Abbreviation NumPy := (@NumPy F) (only parsing).

Add Field num_field_tac : num_field.

Lemma div_def (x y : F) : x / y = x * inv y.
Proof. apply (Fdiv_def num_field). Qed.

Lemma inv_l (x : F) : x <> 0 -> inv x * x = 1.
Proof. apply (Finv_l num_field). Qed.

Lemma div_same (x : F) : x <> 0 -> x / x = 1.
Proof. intros Hx. rewrite div_def. rewrite <- (inv_l x Hx). ring. Qed.

Lemma sub_eq_0 (x y : F) : x - y = 0 -> x = y.
Proof. intros H. transitivity (x - y + y); [ring | rewrite H; ring]. Qed.

Lemma sub_neq_0 (x y : F) : x <> y -> x - y <> 0.
Proof. intros H E. apply H. apply sub_eq_0. exact E. Qed.

Lemma mul_eq_0 (x y : F) : x * y = 0 -> x <> 0 -> y = 0.
Proof.
  intros H Hx. transitivity (inv x * x * y); [rewrite (inv_l x Hx); ring|].
  transitivity (inv x * (x * y)); [ring | rewrite H; ring].
Qed.

Lemma lt_neq (x y : F) : x < y -> x <> y.
Proof. intros H E. subst. exact (lt_irrefl y H). Qed.

Lemma opp_pos (x : F) : x < 0 -> 0 < - x.
Proof.
  intros H. pose proof (add_lt_mono x 0 (- x) H) as H1.
  replace (x + - x) with 0 in H1 by ring.
  replace (0 + - x) with (- x) in H1 by ring. exact H1.
Qed.

Lemma add_pos (x y : F) : 0 < x -> 0 < y -> 0 < x + y.
Proof.
  intros Hx Hy. apply lt_trans with y; [exact Hy|].
  pose proof (add_lt_mono 0 x y Hx) as H1.
  replace (0 + y) with y in H1 by ring. exact H1.
Qed.

Lemma square_nonneg (x : F) : nonneg (x * x).
Proof.
  destruct (lt_total x 0) as [H | [H | H]].
  - right. replace (x * x) with (- x * - x) by ring.
    apply mul_pos; apply opp_pos; exact H.
  - left. subst. ring.
  - right. apply mul_pos; exact H.
Qed.

Lemma square_pos (x : F) : x <> 0 -> 0 < x * x.
Proof.
  intros Hx. destruct (square_nonneg x) as [E | H]; [|exact H].
  exfalso. apply Hx. exact (mul_eq_0 x x E Hx).
Qed.

Lemma one_pos : (0 : F) < 1.
Proof.
  replace (1 : F) with ((1 : F) * 1) by ring. apply square_pos.
  intros E. apply (F_1_neq_0 num_field). exact E.
Qed.

Lemma two_neq_0 : (2 : F) <> 0.
Proof. intros E. apply (lt_neq _ _ (add_pos _ _ one_pos one_pos)). symmetry. exact E. Qed.

Lemma one_neq_0 : (1 : F) <> 0.
Proof. apply (F_1_neq_0 num_field). Qed.

Lemma nonneg_add (x y : F) : nonneg x -> nonneg y -> nonneg (x + y).
Proof.
  intros [Ex | Hx] [Ey | Hy]; subst.
  - left; ring.
  - right. replace (0 + y) with y by ring. exact Hy.
  - right. replace (x + 0) with x by ring. exact Hx.
  - right. apply add_pos; assumption.
Qed.

Lemma nonneg_mul (x y : F) : nonneg x -> nonneg y -> nonneg (x * y).
Proof.
  intros [Ex | Hx] [Ey | Hy]; subst.
  - left; ring.
  - left; ring.
  - left; ring.
  - right. apply mul_pos; assumption.
Qed.

Lemma nonneg_add_eq_0 (x y : F) :
  nonneg x -> nonneg y -> x + y = 0 -> x = 0 /\ y = 0.
Proof.
  intros [Ex | Hx] Ny E.
  - subst. split; [reflexivity|]. rewrite <- E. ring.
  - exfalso. destruct Ny as [Ey | Hy].
    + subst. apply (lt_neq _ _ Hx). rewrite <- E. ring.
    + apply (lt_neq _ _ (add_pos _ _ Hx Hy)). symmetry. exact E.
Qed.

Lemma pos_add_nonneg (x y : F) : 0 < x -> nonneg y -> 0 < x + y.
Proof.
  intros Hx [Ey | Hy].
  - subst. replace (x + 0) with x by ring. exact Hx.
  - apply add_pos; assumption.
Qed.

Lemma nonneg_add_pos (x y : F) : nonneg x -> 0 < y -> 0 < x + y.
Proof.
  intros Nx Hy. replace (x + y) with (y + x) by ring.
  apply pos_add_nonneg; assumption.
Qed.

Lemma mul_reciprocal (x : F) : x <> 0 -> x * (1 / x) = 1.
Proof. intros Hx. field. exact Hx. Qed.

Lemma of_pos_pos (p : positive) : 0 < of_pos p.
Proof.
  induction p as [p IH | p IH |]; simpl.
  - apply add_pos; [exact one_pos|].
    apply mul_pos; [exact (add_pos _ _ one_pos one_pos) | exact IH].
  - apply mul_pos; [exact (add_pos _ _ one_pos one_pos) | exact IH].
  - exact one_pos.
Qed.

Lemma of_Z_neq_0 (z : Z) : z <> 0%Z -> of_Z z <> 0.
Proof.
  destruct z as [|p|p]; intros Hz; simpl.
  - contradiction.
  - intros E. apply (lt_neq _ _ (of_pos_pos p)). symmetry. exact E.
  - intros E. apply (lt_neq _ _ (of_pos_pos p)).
    transitivity (- - of_pos p); [rewrite E; ring | ring].
Qed.

(** *** Polynomials: evaluation is a ring morphism *)

Lemma polyval_polyadd (p q : poly1d) (t : F) :
  polyval (polyadd p q) t = polyval p t + polyval q t.
Proof.
  revert q; induction p as [|a p IH]; intros [|b q]; simpl; try ring.
  rewrite IH. ring.
Qed.

Lemma polyval_polyscale (c : F) (p : poly1d) (t : F) :
  polyval (polyscale c p) t = c * polyval p t.
Proof.
  unfold polyscale. induction p as [|a p IH]; simpl; [ring|].
  rewrite IH. ring.
Qed.

Lemma polyval_polydiv_scalar (p : poly1d) (fac t : F) :
  polyval (polydiv_scalar p fac) t = polyval p t / fac.
Proof.
  unfold polydiv_scalar. induction p as [|a p IH]; simpl.
  - rewrite div_def. ring.
  - rewrite IH. rewrite !div_def. ring.
Qed.

Lemma polyval_polymul (p q : poly1d) (t : F) :
  polyval (polymul p q) t = polyval p t * polyval q t.
Proof.
  induction p as [|a p IH]; simpl; [ring|].
  rewrite polyval_polyadd, polyval_polyscale. simpl. rewrite IH. ring.
Qed.

Lemma length_polyadd (p q : poly1d) :
  length (polyadd p q) = Nat.max (length p) (length q).
Proof.
  revert q; induction p as [|a p IH]; intros [|b q]; simpl; auto.
Qed.

Lemma length_polymul_linear (p : poly1d) (a b : F) :
  p <> [] -> length (polymul p [a; b]) = S (length p).
Proof.
  induction p as [|c p IH]; intros Hp; [contradiction|].
  cbn [polymul]. rewrite length_polyadd. cbn [polyscale map length].
  destruct p as [|c' p]; [reflexivity|].
  rewrite IH by discriminate. cbn [length]. lia.
Qed.

(** *** scipy.interpolate.lagrange, in closed form *)

Lemma lagrange_factor_ok (x : vector) (j k : nat) (pt : poly1d) :
  (j < length x)%nat -> (k < length x)%nat ->
  lagrange_factor x j pt k = Ok (lagrange_factor_pure x j pt k).
Proof.
  intros Hj Hk. unfold lagrange_factor, lagrange_factor_pure.
  destruct (Nat.eqb k j); [reflexivity|].
  rewrite (getitem_nth x j 0 Hj), (getitem_nth x k 0 Hk). reflexivity.
Qed.

Lemma lagrange_term_ok (x w : vector) (j : nat) (p : poly1d) :
  (j < length x)%nat -> (length x <= length w)%nat ->
  lagrange_term x w p j = Ok (lagrange_term_pure x w p j).
Proof.
  intros Hj Hw. unfold lagrange_term, lagrange_term_pure.
  rewrite (getitem_nth w j 0) by lia. simpl.
  rewrite (foldM_pure (lagrange_factor x j) (lagrange_factor_pure x j)).
  - reflexivity.
  - intros s k Hk. apply in_seq in Hk. apply lagrange_factor_ok; lia.
Qed.

Lemma lagrange_ok (x w : vector) :
  (length x <= length w)%nat -> lagrange x w = Ok (lagrange_poly x w).
Proof.
  intros Hw. unfold lagrange, lagrange_poly. apply foldM_pure.
  intros s j Hj. apply in_seq in Hj. apply lagrange_term_ok; lia.
Qed.

Lemma polyval_factors (x : vector) (j : nat) (t : F) (ks : list nat) (pt : poly1d) :
  polyval (fold_left (lagrange_factor_pure x j) ks pt) t
  = polyval pt t * prod (map (ell_factor x j t) ks).
Proof.
  revert pt; induction ks as [|k ks IH]; intros pt; simpl; [ring|].
  rewrite IH. unfold lagrange_factor_pure, ell_factor.
  destruct (Nat.eqb k j); [ring|].
  rewrite polyval_polymul, polyval_polydiv_scalar. simpl.
  rewrite !div_def. ring.
Qed.

Lemma polyval_terms (x w : vector) (t : F) (js : list nat) (p : poly1d) :
  polyval (fold_left (lagrange_term_pure x w) js p) t
  = polyval p t + sum (map (fun j => nth j w 0 * ell x j t) js).
Proof.
  revert p; induction js as [|j js IH]; intros p; cbn [fold_left map sum]; [ring|].
  rewrite IH. unfold lagrange_term_pure.
  rewrite polyval_polyadd, polyval_factors. unfold ell. simpl. ring.
Qed.

(** The interpolant of the data [w] is the combination of the cardinal
    functions with coefficients [w]. *)
Lemma polyval_lagrange_poly (x w : vector) (t : F) :
  polyval (lagrange_poly x w) t
  = sum (map (fun j => nth j w 0 * ell x j t) (seq 0 (length x))).
Proof.
  unfold lagrange_poly. rewrite polyval_terms. simpl. ring.
Qed.

Lemma factors_nonempty (x : vector) (j : nat) (ks : list nat) (pt : poly1d) :
  pt <> [] -> fold_left (lagrange_factor_pure x j) ks pt <> [].
Proof.
  revert pt; induction ks as [|k ks IH]; intros pt Hpt; simpl; [exact Hpt|].
  apply IH. unfold lagrange_factor_pure. destruct (Nat.eqb k j); [exact Hpt|].
  intros E. apply (f_equal (@length F)) in E.
  unfold polydiv_scalar in E. cbn [map] in E.
  rewrite length_polymul_linear in E by exact Hpt. discriminate.
Qed.

Lemma length_factors (x : vector) (j : nat) (ks : list nat) (pt : poly1d) :
  pt <> [] ->
  (length (fold_left (lagrange_factor_pure x j) ks pt) <= length pt + length ks)%nat.
Proof.
  revert pt; induction ks as [|k ks IH]; intros pt Hpt; cbn [fold_left length]; [lia|].
  unfold lagrange_factor_pure at 2. destruct (Nat.eqb k j).
  - specialize (IH pt Hpt). lia.
  - unfold polydiv_scalar. cbn [map].
    assert (Hne : polymul pt [- nth k x 0 / (nth j x 0 - nth k x 0);
                              1 / (nth j x 0 - nth k x 0)] <> []).
    { intros E. apply (f_equal (@length F)) in E.
      rewrite length_polymul_linear in E by exact Hpt. discriminate. }
    specialize (IH _ Hne). rewrite length_polymul_linear in IH by exact Hpt. lia.
Qed.

Lemma length_factors_skip (x : vector) (j : nat) (pre post : list nat) (pt : poly1d) :
  pt <> [] ->
  (length (fold_left (lagrange_factor_pure x j) (pre ++ j :: post) pt)
   <= length pt + length pre + length post)%nat.
Proof.
  intros Hpt. rewrite fold_left_app. cbn [fold_left].
  unfold lagrange_factor_pure at 2. rewrite Nat.eqb_refl.
  pose proof (length_factors x j pre pt Hpt) as H1.
  pose proof (length_factors x j post _ (factors_nonempty x j pre pt Hpt)) as H2.
  lia.
Qed.

Lemma seq_split_at (n j : nat) :
  (j < n)%nat -> seq 0 n = seq 0 j ++ j :: seq (S j) (n - S j).
Proof.
  intros Hj. replace n with (j + S (n - S j))%nat at 1 by lia.
  rewrite seq_app. reflexivity.
Qed.

Lemma length_lagrange_terms (x w : vector) (js : list nat) (p : poly1d) :
  (forall j, In j js -> j < length x)%nat ->
  (length p <= length x)%nat ->
  (length (fold_left (lagrange_term_pure x w) js p) <= length x)%nat.
Proof.
  revert p; induction js as [|j js IH]; intros p Hjs Hp; simpl; [exact Hp|].
  apply IH; [intros; apply Hjs; right; assumption|].
  unfold lagrange_term_pure. rewrite length_polyadd.
  assert (Hj : (j < length x)%nat) by (apply Hjs; left; reflexivity).
  rewrite (seq_split_at (length x) j Hj).
  pose proof (length_factors_skip x j (seq 0 j) (seq (S j) (length x - S j))
                [nth j w 0]) as H1.
  rewrite !length_seq in H1. cbn [length] in H1.
  assert (H2 : [nth j w 0] <> []) by discriminate.
  specialize (H1 H2). lia.
Qed.

(** The interpolant on [n >= 1] nodes has at most [n] coefficients. *)
Lemma length_lagrange_poly (x w : vector) :
  (1 <= length x)%nat -> (length (lagrange_poly x w) <= length x)%nat.
Proof.
  intros Hx. unfold lagrange_poly. apply length_lagrange_terms.
  - intros j Hj. apply in_seq in Hj. lia.
  - simpl. exact Hx.
Qed.

(** *** The cardinal property *)

Lemma prod_ones (l : list F) : (forall z, In z l -> z = 1) -> prod l = 1.
Proof.
  induction l as [|a l IH]; intros H; simpl; [reflexivity|].
  rewrite (H a) by (left; reflexivity).
  rewrite IH by (intros; apply H; right; assumption). ring.
Qed.

Lemma prod_zero (l : list F) : In 0 l -> prod l = 0.
Proof.
  induction l as [|a l IH]; intros H; simpl; [contradiction|].
  destruct H as [E | H]; [subst; ring | rewrite (IH H); ring].
Qed.

Lemma ell_self (x : vector) (i : nat) :
  NoDup x -> (i < length x)%nat -> ell x i (nth i x 0) = 1.
Proof.
  intros Hnd Hi. unfold ell. apply prod_ones.
  intros z Hz. apply in_map_iff in Hz. destruct Hz as [k [Hk Hin]].
  apply in_seq in Hin. subst z. unfold ell_factor.
  destruct (Nat.eqb_spec k i) as [E | Hne]; [reflexivity|].
  apply div_same. apply sub_neq_0. intros E. apply Hne. symmetry.
  apply (proj1 (NoDup_nth x 0) Hnd i k); [exact Hi | lia | exact E].
Qed.

Lemma ell_other (x : vector) (i m : nat) :
  (m < length x)%nat -> m <> i -> ell x i (nth m x 0) = 0.
Proof.
  intros Hm Hne. unfold ell. apply prod_zero. apply in_map_iff.
  exists m. split; [|apply in_seq; lia].
  unfold ell_factor. destruct (Nat.eqb_spec m i) as [E | _]; [contradiction|].
  rewrite div_def. ring.
Qed.

Lemma nth_unit_vector (n i j : nat) :
  (i < n)%nat -> nth j (unit_vector n i) 0 = if Nat.eqb j i then 1 else 0.
Proof.
  intros Hi. unfold unit_vector. destruct (Nat.eqb_spec j i) as [E | Hne].
  - subst. apply nth_replace_nth_eq. rewrite repeat_length. exact Hi.
  - rewrite nth_replace_nth_neq by (intros E; apply Hne; symmetry; exact E).
    destruct (Nat.lt_ge_cases j n) as [Hj | Hj].
    + apply nth_repeat_lt. exact Hj.
    + apply nth_overflow. rewrite repeat_length. exact Hj.
Qed.

Lemma length_unit_vector (n i : nat) : length (unit_vector n i) = n.
Proof. unfold unit_vector. rewrite replace_nth_length. apply repeat_length. Qed.

Lemma sum_delta (g : nat -> F) (i : nat) (js : list nat) :
  NoDup js -> In i js ->
  sum (map (fun j => (if Nat.eqb j i then 1 else 0) * g j) js) = g i.
Proof.
  induction js as [|j js IH]; intros Hnd Hin; [contradiction|].
  inversion Hnd as [|? ? Hnotin Hnd']; subst. simpl.
  destruct (Nat.eqb_spec j i) as [E | Hne].
  - subst. replace (sum _) with (0 : F); [ring|].
    symmetry. clear IH Hin Hnd Hnd'. induction js as [|k js IH]; [reflexivity|].
    simpl. destruct (Nat.eqb_spec k i) as [E | _].
    + exfalso. apply Hnotin. left. exact E.
    + rewrite IH by (intros H; apply Hnotin; right; exact H). ring.
  - destruct Hin as [E | Hin]; [contradiction|]. rewrite (IH Hnd' Hin). ring.
Qed.

Lemma sum_map_ext {A : Type} (g h : A -> F) (js : list A) :
  (forall j, In j js -> g j = h j) -> sum (map g js) = sum (map h js).
Proof.
  induction js as [|j js IH]; intros H; simpl; [reflexivity|].
  rewrite (H j) by (left; reflexivity).
  rewrite IH by (intros; apply H; right; assumption). reflexivity.
Qed.

(** The [i]-th basis polynomial is the [i]-th cardinal function. *)
Lemma polyval_basis_poly (X : vector) (i : nat) (t : F) :
  (i < length X)%nat -> polyval (basis_poly X i) t = ell X i t.
Proof.
  intros Hi. unfold basis_poly. rewrite polyval_lagrange_poly.
  rewrite (sum_map_ext _ (fun j => (if Nat.eqb j i then 1 else 0) * ell X j t)).
  - apply (sum_delta (fun j => ell X j t)); [apply seq_NoDup | apply in_seq; lia].
  - intros j _. rewrite (nth_unit_vector _ _ j Hi). reflexivity.
Qed.

(** *** A polynomial with more roots than coefficients vanishes *)

Lemma horner_spec (p : poly1d) (r t : F) :
  polyval p t = (t - r) * polyval (fst (horner p r)) t + snd (horner p r).
Proof.
  induction p as [|c p IH]; simpl; [ring|].
  destruct (horner p r) as [q v] eqn:E. simpl in *.
  destruct p as [|c' p'].
  - simpl in E. inversion E; subst. simpl. ring.
  - rewrite IH. simpl. ring.
Qed.

Lemma horner_length (p : poly1d) (r : F) :
  length (fst (horner p r)) = pred (length p).
Proof.
  induction p as [|c p IH]; simpl; [reflexivity|].
  destruct (horner p r) as [q v] eqn:E. simpl in *.
  destruct p as [|c' p']; simpl in *; [reflexivity|]. rewrite IH. reflexivity.
Qed.

Lemma horner_remainder (p : poly1d) (r : F) : snd (horner p r) = polyval p r.
Proof.
  rewrite (horner_spec p r r). ring.
Qed.

Theorem roots_bound (rs : list F) :
  NoDup rs ->
  forall p : poly1d,
    (length p <= length rs)%nat ->
    (forall r, In r rs -> polyval p r = 0) ->
    forall t, polyval p t = 0.
Proof.
  induction rs as [|r rs IH]; intros Hnd p Hlen Hroots t.
  - destruct p; [reflexivity | simpl in Hlen; lia].
  - inversion Hnd as [|? ? Hnotin Hnd']; subst.
    assert (Hq : forall s, polyval p s = (s - r) * polyval (fst (horner p r)) s).
    { intros s. rewrite (horner_spec p r s) at 1.
      rewrite horner_remainder, (Hroots r) by (left; reflexivity). ring. }
    rewrite Hq. rewrite (IH Hnd' (fst (horner p r))); [ring | |].
    + rewrite horner_length. simpl in Hlen. lia.
    + intros r' Hr'. apply mul_eq_0 with (x := r' - r).
      * rewrite <- Hq. apply Hroots. right. exact Hr'.
      * apply sub_neq_0. intros E. subst. contradiction.
Qed.

(** *** The loops of the program, in closed form *)

Lemma setitem2_row {A : Type} (rows_pre rows_post : list (list A))
  (row : list A) (j : nat) (b : A) :
  (j < length row)%nat ->
  setitem2 (rows_pre ++ row :: rows_post) (length rows_pre) j b
  = Ok (rows_pre ++ replace_nth row j b :: rows_post).
Proof.
  intros Hj. unfold setitem2. rewrite getitem_app_mid. simpl.
  unfold setitem at 1. apply Nat.ltb_lt in Hj. rewrite Hj. simpl.
  apply setitem_app_mid.
Qed.

Lemma get_e_loop (n m : nat) (pre : matrix) :
  n = (length pre + m)%nat ->
  foldM (fun e i => setitem2 e i i 1) (seq (length pre) m)
        (pre ++ repeat (repeat 0 n) m)
  = Ok (pre ++ map (unit_vector n) (seq (length pre) m)).
Proof.
  revert pre; induction m as [|m IH]; intros pre Hn; [reflexivity|].
  cbn [repeat seq foldM map].
  rewrite setitem2_row by (rewrite repeat_length; lia). simpl.
  fold (unit_vector n (length pre)).
  specialize (IH (pre ++ [unit_vector n (length pre)])).
  rewrite length_app, Nat.add_1_r, <- !app_assoc in IH. simpl in IH.
  apply IH. lia.
Qed.

Lemma get_e_ok (n : Z) :
  (0 <= n)%Z -> get_e n = Ok (identity (Z.to_nat n)).
Proof.
  intros Hn. unfold get_e, zeros2, range.
  replace (n <? 0)%Z with false by (symmetry; apply Z.ltb_ge; exact Hn).
  simpl. apply (get_e_loop (Z.to_nat n) (Z.to_nat n) []). reflexivity.
Qed.

Lemma get_e_negative (n : Z) : (n < 0)%Z -> get_e n = Raise ValueError.
Proof.
  intros Hn. unfold get_e, zeros2. apply Z.ltb_lt in Hn. rewrite Hn. reflexivity.
Qed.

Lemma getitem_identity (n i : nat) :
  (i < n)%nat -> getitem (identity n) i = Ok (unit_vector n i).
Proof.
  intros Hi. unfold identity.
  rewrite (getitem_nth _ i (unit_vector n 0)) by (rewrite length_map, length_seq; exact Hi).
  rewrite (map_nth (unit_vector n) (seq 0 n) 0%nat i), seq_nth by exact Hi.
  reflexivity.
Qed.

Lemma get_basis_ok (n : Z) (X : vector) (i : nat) :
  (i < length X)%nat ->
  get_basis n (identity (length X)) X i = Ok (basis_poly X i).
Proof.
  intros Hi. unfold get_basis. rewrite getitem_identity by exact Hi. simpl.
  rewrite lagrange_ok by (rewrite length_unit_vector; lia). reflexivity.
Qed.

Lemma fill_entries (v : poly1d) (Bp Bs Dp Ds : matrix) (qpost : vector) :
  length Bp = length Dp ->
  forall (qpre bpre bpost dpre dpost : vector),
    length bpre = length qpre -> length dpre = length qpre ->
    length bpost = length qpost -> length dpost = length qpost ->
    foldM (fill_entry v (qpre ++ qpost) (length Bp))
          (seq (length qpre) (length qpost))
          (Bp ++ (bpre ++ bpost) :: Bs, Dp ++ (dpre ++ dpost) :: Ds)
    = Ok (Bp ++ (bpre ++ map (polyval v) qpost) :: Bs,
          Dp ++ (dpre ++ map (derivative (polyval v)) qpost) :: Ds).
Proof.
  intros HBD. induction qpost as [|a qpost IH];
    intros qpre bpre bpost dpre dpost Hb Hd Hb' Hd'.
  - destruct bpost; [|discriminate]. destruct dpost; [|discriminate]. reflexivity.
  - destruct bpost as [|b bpost]; [discriminate|].
    destruct dpost as [|d dpost]; [discriminate|].
    cbn [length seq foldM map]. unfold fill_entry at 1.
    rewrite getitem_app_mid. cbn [bind].
    rewrite <- Hb at 1. rewrite setitem2_app_mid. cbn [bind].
    rewrite HBD at 1. rewrite <- Hd at 1. rewrite setitem2_app_mid. cbn [bind].
    specialize (IH (qpre ++ [a]) (bpre ++ [polyval v a]) bpost
                   (dpre ++ [derivative (polyval v) a]) dpost).
    rewrite !length_app, !Nat.add_1_r, <- !app_assoc in IH. cbn [app] in IH.
    apply IH; simpl in *; lia.
Qed.

Lemma fill_rows (n : Z) (e : matrix) (X q : vector) (vs : nat -> poly1d)
  (m : nat) :
  forall (Bp Bs Dp Ds : matrix),
    length Bp = length Dp -> length Bs = m -> length Ds = m ->
    Z.to_nat n = length q ->
    (forall r, In r Bs -> length r = length q) ->
    (forall r, In r Ds -> length r = length q) ->
    (forall i, (length Bp <= i < length Bp + m)%nat ->
               get_basis n e X i = Ok (vs i)) ->
    foldM (fill_row n e X q) (seq (length Bp) m) (Bp ++ Bs, Dp ++ Ds)
    = Ok (Bp ++ map (fun i => map (polyval (vs i)) q) (seq (length Bp) m),
          Dp ++ map (fun i => map (derivative (polyval (vs i))) q)
                    (seq (length Bp) m)).
Proof.
  induction m as [|m IH]; intros Bp Bs Dp Ds HBD HBs HDs Hq HrB HrD Hv.
  - destruct Bs; [|discriminate]. destruct Ds; [|discriminate]. reflexivity.
  - destruct Bs as [|rB Bs]; [discriminate|]. destruct Ds as [|rD Ds]; [discriminate|].
    cbn [seq foldM map]. unfold fill_row at 1.
    rewrite Hv by lia. cbn [bind]. unfold range. rewrite Hq.
    pose proof (fill_entries (vs (length Bp)) Bp Bs Dp Ds q HBD [] [] rB [] rD) as H.
    cbn [app length] in H. rewrite H; try reflexivity;
      [| apply HrB; left; reflexivity | apply HrD; left; reflexivity].
    cbn [bind].
    specialize (IH (Bp ++ [map (polyval (vs (length Bp))) q]) Bs
                   (Dp ++ [map (derivative (polyval (vs (length Bp)))) q]) Ds).
    rewrite !length_app, !Nat.add_1_r, <- !app_assoc in IH. cbn [app] in IH.
    apply IH; simpl in *; try lia.
    + intros r Hr. apply HrB. right. exact Hr.
    + intros r Hr. apply HrD. right. exact Hr.
    + intros i Hi. apply Hv. lia.
Qed.

Lemma einsum_gram (D : matrix) (w : vector) :
  (forall r, In r D -> length r = length w) ->
  einsum_iq_q_jq D w D = Ok (gram D w).
Proof.
  intros H. unfold einsum_iq_q_jq.
  replace (rows_have D (length w)) with true; [reflexivity|].
  symmetry. unfold rows_have. apply forallb_forall.
  intros r Hr. apply Nat.eqb_eq. apply H. exact Hr.
Qed.

Lemma zeros2_ok (n : Z) :
  (0 <= n)%Z ->
  zeros2 n n = Ok (repeat (repeat 0 (Z.to_nat n)) (Z.to_nat n)).
Proof.
  intros Hn. unfold zeros2.
  replace (n <? 0)%Z with false by (symmetry; apply Z.ltb_ge; exact Hn).
  reflexivity.
Qed.

Section WithNumPy.

Variable np : NumPy.

(** The loops leave in [B] the values, and in [D] the central differences,
    of the basis polynomials at the quadrature points. *)
Lemma evaluation_matrices_ok (n : Z) :
  (2 <= n)%Z -> numpy_shapes np (Z.to_nat n) ->
  evaluation_matrices np n = Ok (B_of np (Z.to_nat n), D_of np (Z.to_nat n)).
Proof.
  intros Hn [HX [Hq Hw]]. unfold evaluation_matrices, chebpts2, leggauss.
  rewrite get_e_ok by lia. cbn [bind].
  replace (n <? 2)%Z with false by (symmetry; apply Z.ltb_ge; lia).
  replace (n <=? 0)%Z with false by (symmetry; apply Z.leb_gt; lia).
  cbn [bind]. unfold B_of, D_of.
  destruct (leggauss_values np (Z.to_nat n)) as [q w]. cbn [fst snd] in *.
  rewrite zeros2_ok by lia. cbn [bind]. unfold range.
  set (X := chebpts2_values np (Z.to_nat n)) in *.
  pose proof (fill_rows n (identity (Z.to_nat n)) X q (basis_poly X) (Z.to_nat n)
                [] (repeat (repeat 0 (Z.to_nat n)) (Z.to_nat n))
                [] (repeat (repeat 0 (Z.to_nat n)) (Z.to_nat n))) as H.
  cbn [app length] in H.
  unfold values_at, differences_at, basis_polys. rewrite HX, !map_map.
  apply H; clear H.
  - reflexivity.
  - apply repeat_length.
  - apply repeat_length.
  - symmetry. exact Hq.
  - intros r Hr. apply repeat_spec in Hr. subst r. rewrite repeat_length.
    symmetry. exact Hq.
  - intros r Hr. apply repeat_spec in Hr. subst r. rewrite repeat_length.
    symmetry. exact Hq.
  - intros i Hi. rewrite <- HX. apply get_basis_ok. lia.
Qed.

Lemma B_of_rows (n : nat) (r : vector) :
  In r (B_of np n) -> length r = length (fst (leggauss_values np n)).
Proof.
  unfold B_of, values_at. intros Hr. apply in_map_iff in Hr.
  destruct Hr as [v [E _]]. subst r. apply length_map.
Qed.

Lemma D_of_rows (n : nat) (r : vector) :
  In r (D_of np n) -> length r = length (fst (leggauss_values np n)).
Proof.
  unfold D_of, differences_at. intros Hr. apply in_map_iff in Hr.
  destruct Hr as [v [E _]]. subst r. apply length_map.
Qed.

(** For [n >= 2] the program returns, and what it returns is the triple
    of Gram matrices of [D] and [B] and their sum. *)
Lemma compute_ok (n : Z) :
  (2 <= n)%Z -> numpy_shapes np (Z.to_nat n) ->
  compute_one_dimensional_matrices np n
  = Ok (K_of np (Z.to_nat n), M_of np (Z.to_nat n), A_of np (Z.to_nat n)).
Proof.
  intros Hn Hs. pose proof (evaluation_matrices_ok n Hn Hs) as HE.
  destruct Hs as [HX [Hq Hw]].
  unfold evaluation_matrices in HE. unfold compute_one_dimensional_matrices.
  destruct (get_e n) as [e|]; [|discriminate]. cbn [bind] in *.
  destruct (chebpts2 np n) as [X|]; [|discriminate]. cbn [bind] in *.
  unfold leggauss in *.
  replace (n <=? 0)%Z with false in * by (symmetry; apply Z.leb_gt; lia).
  cbn [bind] in *. unfold A_of, K_of, M_of.
  pose proof (B_of_rows (Z.to_nat n)) as HB.
  pose proof (D_of_rows (Z.to_nat n)) as HD.
  destruct (leggauss_values np (Z.to_nat n)) as [q w]. cbn [fst snd] in *.
  destruct (zeros2 n n) as [Z0|]; [|discriminate]. cbn [bind] in *.
  rewrite HE. cbn [bind].
  rewrite einsum_gram by (intros r Hr; rewrite (HD r Hr); lia). cbn [bind].
  rewrite einsum_gram by (intros r Hr; rewrite (HB r Hr); lia). reflexivity.
Qed.

(** The program is the filling loops followed by the two contractions. *)
Lemma compute_via_evaluation (n : Z) :
  compute_one_dimensional_matrices np n
  = ('(B, D) <- evaluation_matrices np n ;;
     '(q, w) <- leggauss np n ;;
     K <- einsum_iq_q_jq D w D ;;
     M <- einsum_iq_q_jq B w B ;;
     Ok (K, M, madd K M))%py.
Proof.
  unfold compute_one_dimensional_matrices, evaluation_matrices.
  destruct (get_e n) as [e|]; [|reflexivity]. cbn [bind].
  destruct (chebpts2 np n) as [X|]; [|reflexivity]. cbn [bind].
  destruct (leggauss np n) as [[q w]|]; [|reflexivity]. cbn [bind].
  destruct (zeros2 n n) as [Z0|]; [|reflexivity]. cbn [bind].
  destruct (foldM (fill_row n e X q) (range n) (Z0, Z0)) as [[B D]|];
    reflexivity.
Qed.

(** For [n < 2] one of NumPy's own guards raises [ValueError]. *)
Lemma compute_too_small (n : Z) :
  (n < 2)%Z -> compute_one_dimensional_matrices np n = Raise ValueError.
Proof.
  intros Hn. unfold compute_one_dimensional_matrices.
  destruct (Z.lt_ge_cases n 0) as [Hneg | Hpos].
  - rewrite get_e_negative by exact Hneg. reflexivity.
  - rewrite get_e_ok by exact Hpos. cbn [bind]. unfold chebpts2.
    apply Z.ltb_lt in Hn. rewrite Hn. reflexivity.
Qed.

End WithNumPy.

(** *** Weighted Gram matrices *)

Lemma sum3_comm (a w b : vector) : sum3 a w b = sum3 b w a.
Proof.
  revert w b; induction a as [|x a IH]; intros [|y w] [|z b]; simpl;
    try reflexivity.
  rewrite (IH w b). ring.
Qed.

Lemma sum3_nil_r (a w : vector) : sum3 a w [] = 0.
Proof. destruct a; [reflexivity|]. destruct w; reflexivity. Qed.

Lemma sum3_vadd (a w b c : vector) :
  length b = length c -> sum3 a w (vadd b c) = sum3 a w b + sum3 a w c.
Proof.
  revert w b c; induction a as [|x a IH]; intros [|y w] [|z b] [|z' c] H;
    simpl in *; try discriminate; try ring.
  rewrite IH by lia. ring.
Qed.

Lemma sum3_scale (a w b : vector) (k : F) :
  sum3 a w (map (mul k) b) = k * sum3 a w b.
Proof.
  revert w b; induction a as [|x a IH]; intros [|y w] [|z b]; simpl; try ring.
  rewrite IH. ring.
Qed.

Lemma sum3_zeros (a w : vector) (L : nat) : sum3 a w (repeat 0 L) = 0.
Proof.
  revert a w; induction L as [|L IH]; intros a w; simpl; [apply sum3_nil_r|].
  destruct a as [|x a]; [reflexivity|]. destruct w as [|y w]; [reflexivity|].
  simpl. rewrite IH. ring.
Qed.

Lemma length_vadd (a b : vector) :
  length a = length b -> length (vadd a b) = length a.
Proof.
  revert b; induction a as [|x a IH]; intros [|y b] H; simpl in *;
    try discriminate; try reflexivity.
  rewrite IH by lia. reflexivity.
Qed.

Lemma length_lincomb (L : nat) (x : vector) (D : matrix) :
  (forall r, In r D -> length r = L) -> length (lincomb L x D) = L.
Proof.
  revert D; induction x as [|xi x IH]; intros [|Di D] H; simpl;
    try apply repeat_length.
  assert (HD : length (lincomb L x D) = L)
    by (apply IH; intros; apply H; right; assumption).
  rewrite length_vadd; rewrite length_map; [|rewrite HD];
    apply H; left; reflexivity.
Qed.

Lemma dot_comm (a b : vector) : dot a b = dot b a.
Proof.
  revert b; induction a as [|x a IH]; intros [|y b]; simpl; try reflexivity.
  rewrite (IH b). ring.
Qed.

(** Summing a Gram row against [x] contracts [x] with the rows first. *)
Lemma dot_sum3 (a w x : vector) (D : matrix) (L : nat) :
  (forall r, In r D -> length r = L) ->
  dot (map (fun Dj => sum3 a w Dj) D) x = sum3 a w (lincomb L x D).
Proof.
  revert x; induction D as [|Dj D IH]; intros [|xj x] H; simpl;
    try (rewrite sum3_zeros; reflexivity).
  rewrite sum3_vadd, sum3_scale.
  - rewrite IH by (intros; apply H; right; assumption). ring.
  - rewrite length_map, length_lincomb by (intros; apply H; right; assumption).
    apply H. left. reflexivity.
Qed.

(** The quadratic form of a Gram matrix is a weighted sum of squares. *)
Lemma quad_form_gram (D : matrix) (w x : vector) (L : nat) :
  (forall r, In r D -> length r = L) ->
  quad_form (gram D w) x = sum3 (lincomb L x D) w (lincomb L x D).
Proof.
  intros H. unfold quad_form, mat_vec, gram. rewrite map_map.
  rewrite (map_ext (fun Di => dot (map (fun Dj => sum3 Di w Dj) D) x)
                   (fun Di => sum3 (lincomb L x D) w Di)).
  - rewrite dot_comm. apply dot_sum3. exact H.
  - intros Di. rewrite (dot_sum3 Di w x D L H). apply sum3_comm.
Qed.

Lemma length_gram (D : matrix) (w : vector) : length (gram D w) = length D.
Proof. unfold gram. apply length_map. Qed.

Lemma gram_square (D : matrix) (w : vector) : is_square (length D) (gram D w).
Proof.
  split; [apply length_gram|]. unfold gram. intros r Hr.
  apply in_map_iff in Hr. destruct Hr as [Di [E _]]. subst r. apply length_map.
Qed.

Lemma entry_gram (D : matrix) (w : vector) (i j : nat) :
  (i < length D)%nat -> (j < length D)%nat ->
  entry (gram D w) i j = sum3 (nth i D []) w (nth j D []).
Proof.
  intros Hi Hj. unfold entry, gram.
  rewrite (nth_indep _ [] ((fun Di => map (fun Dj => sum3 Di w Dj) D) []))
    by (rewrite length_map; exact Hi).
  rewrite (map_nth (fun Di => map (fun Dj => sum3 Di w Dj) D) D [] i).
  rewrite (nth_indep _ 0 ((fun Dj => sum3 (nth i D []) w Dj) []))
    by (rewrite length_map; exact Hj).
  apply (map_nth (fun Dj => sum3 (nth i D []) w Dj) D [] j).
Qed.

Lemma entry_out_of_range (m : matrix) (n i j : nat) :
  is_square n m -> (n <= i \/ n <= j)%nat -> entry m i j = 0.
Proof.
  intros [Hlen Hrows] Hij. unfold entry.
  destruct (Nat.lt_ge_cases i n) as [Hi | Hi].
  - apply nth_overflow. rewrite (Hrows (nth i m [])); [lia|].
    apply nth_In. lia.
  - rewrite (nth_overflow m) by lia. destruct j; reflexivity.
Qed.

Theorem gram_symmetric (D : matrix) (w : vector) : symmetric (gram D w).
Proof.
  intros i j.
  destruct (Nat.lt_ge_cases i (length D)) as [Hi | Hi];
    [destruct (Nat.lt_ge_cases j (length D)) as [Hj | Hj]|].
  - rewrite !entry_gram by assumption. apply sum3_comm.
  - rewrite !(entry_out_of_range (gram D w) (length D));
      auto using gram_square.
  - rewrite !(entry_out_of_range (gram D w) (length D));
      auto using gram_square.
Qed.

Lemma transpose_of_symmetric (n : nat) (m : matrix) :
  is_square n m -> symmetric m -> transpose n m = m.
Proof.
  intros [Hlen Hrows] Hsym. unfold transpose.
  transitivity (map (fun j => nth j m []) (seq 0 n));
    [|rewrite <- Hlen; apply map_seq_nth].
  apply map_ext_in. intros j Hj. apply in_seq in Hj.
  assert (Hrow : length (nth j m []) = n) by (apply Hrows, nth_In; lia).
  apply nth_ext with (d := 0) (d' := 0).
  - rewrite length_map. lia.
  - intros k Hk. rewrite length_map in Hk.
    rewrite (nth_indep _ 0 ((fun row => nth j row 0) []))
      by (rewrite length_map; exact Hk).
    rewrite (map_nth (fun row => nth j row 0) m [] k).
    apply (Hsym k j).
Qed.

(** *** Interpolation and the partition of unity *)

Lemma interp_at_node (X c : vector) (m : nat) :
  NoDup X -> (m < length X)%nat ->
  polyval (lagrange_poly X c) (nth m X 0) = nth m c 0.
Proof.
  intros Hnd Hm. rewrite polyval_lagrange_poly.
  rewrite (sum_map_ext _ (fun j => (if Nat.eqb j m then 1 else 0) * nth j c 0)).
  - apply (sum_delta (fun j => nth j c 0)); [apply seq_NoDup | apply in_seq; lia].
  - intros j Hj. apply in_seq in Hj.
    destruct (Nat.eqb_spec j m) as [E | Hne].
    + subst. rewrite ell_self by assumption. ring.
    + rewrite ell_other by (try assumption; intros E; apply Hne; symmetry; exact E).
      ring.
Qed.

Lemma lagrange_poly_ones (X : vector) (t : F) :
  polyval (lagrange_poly X (repeat 1 (length X))) t
  = sum (map (fun i => ell X i t) (seq 0 (length X))).
Proof.
  rewrite polyval_lagrange_poly. apply sum_map_ext.
  intros j Hj. apply in_seq in Hj. rewrite nth_repeat_lt by lia. ring.
Qed.

Theorem partition_of_unity (X : vector) (t : F) :
  NoDup X -> (1 <= length X)%nat ->
  sum (map (fun i => ell X i t) (seq 0 (length X))) = 1.
Proof.
  intros Hnd Hlen. rewrite <- lagrange_poly_ones.
  set (p := lagrange_poly X (repeat 1 (length X))).
  assert (H : polyval (polyadd p [- (1)]) t = 0).
  { apply (roots_bound X Hnd).
    - rewrite length_polyadd. pose proof (length_lagrange_poly X (repeat 1 (length X)) Hlen).
      fold p in H. simpl. lia.
    - intros r Hr. apply (In_nth X r 0) in Hr. destruct Hr as [m [Hm Er]].
      subst r. rewrite polyval_polyadd. unfold p.
      rewrite interp_at_node by assumption. rewrite nth_repeat_lt by exact Hm.
      simpl. ring. }
  rewrite polyval_polyadd in H. simpl in H.
  transitivity (polyval p t + (- (1) + t * 0) + 1); [ring | rewrite H; ring].
Qed.

Lemma sum_basis_polys (X : vector) (t : F) :
  NoDup X -> (1 <= length X)%nat ->
  sum (map (fun v => polyval v t) (basis_polys X)) = 1.
Proof.
  intros Hnd Hlen. unfold basis_polys. rewrite map_map.
  rewrite <- (partition_of_unity X t Hnd Hlen). apply sum_map_ext.
  intros i Hi. apply in_seq in Hi. apply polyval_basis_poly. lia.
Qed.

(** *** scipy.misc.derivative is the central difference of step 1 *)

Lemma derivative_eq (f : F -> F) (a : F) :
  derivative f a = (f (a + 1) - f (a - 1)) / 2.
Proof.
  unfold derivative.
  replace (a + - (1) * 1) with (a - 1) by ring.
  replace (a + 1 * 1) with (a + 1) by ring.
  field. split; [exact two_neq_0 | exact one_neq_0].
Qed.

Lemma sum_differences {A : Type} (g h : A -> F) (l : list A) :
  sum (map (fun v => (g v - h v) / 2) l) = (sum (map g l) - sum (map h l)) / 2.
Proof.
  induction l as [|v l IH]; simpl.
  - rewrite div_def. ring.
  - rewrite IH. rewrite !div_def. ring.
Qed.

(** The central differences of the basis polynomials add up to zero. *)
Lemma sum_basis_differences (X : vector) (a : F) :
  NoDup X -> (1 <= length X)%nat ->
  sum (map (fun v => derivative (polyval v) a) (basis_polys X)) = 0.
Proof.
  intros Hnd Hlen.
  rewrite (sum_map_ext _ (fun v => (polyval v (a + 1) - polyval v (a - 1)) / 2))
    by (intros; apply derivative_eq).
  rewrite (sum_differences (fun v => polyval v (a + 1)) (fun v => polyval v (a - 1))).
  rewrite !sum_basis_polys by assumption. rewrite div_def. ring.
Qed.

Lemma map_zero {A : Type} (l : list A) :
  map (fun _ => 0) l = repeat 0 (length l).
Proof. induction l as [|a l IH]; simpl; [reflexivity | rewrite IH; reflexivity]. Qed.

Lemma vadd_map {A : Type} (g h : A -> F) (l : list A) :
  vadd (map g l) (map h l) = map (fun a => g a + h a) l.
Proof.
  induction l as [|a l IH]; simpl; [reflexivity | rewrite IH; reflexivity].
Qed.

(** Combining rows of evaluations combines the evaluated functions. *)
Lemma lincomb_map {A : Type} (g : A -> F -> F) (q x : vector) (vs : list A) :
  lincomb (length q) x (map (fun v => map (g v) q) vs)
  = map (fun a => dot x (map (fun v => g v a) vs)) q.
Proof.
  revert vs; induction x as [|xi x IH]; intros [|v vs]; simpl;
    try (symmetry; apply map_zero).
  rewrite IH, map_map. apply vadd_map.
Qed.

Lemma dot_ones (l : vector) : dot (repeat 1 (length l)) l = sum l.
Proof.
  induction l as [|a l IH]; simpl; [reflexivity | rewrite IH; ring].
Qed.

Section WithNumPy2.

Variable np : NumPy.

Lemma length_basis_polys (X : vector) : length (basis_polys X) = length X.
Proof. unfold basis_polys. rewrite length_map, length_seq. reflexivity. Qed.

Lemma length_D_of (n : nat) :
  numpy_shapes np n -> length (D_of np n) = n.
Proof.
  intros [HX _]. unfold D_of, differences_at.
  rewrite length_map, length_basis_polys. exact HX.
Qed.

Lemma length_B_of (n : nat) :
  numpy_shapes np n -> length (B_of np n) = n.
Proof.
  intros [HX _]. unfold B_of, values_at.
  rewrite length_map, length_basis_polys. exact HX.
Qed.

(** The columns of [D] add up to zero. *)
Lemma D_of_column_sums (n : nat) :
  (1 <= n)%nat -> numpy_shapes np n -> nodes_distinct np n ->
  lincomb n (repeat 1 n) (D_of np n) = repeat 0 n.
Proof.
  intros Hn [HX [Hq Hw]] Hnd. unfold D_of, differences_at.
  rewrite <- Hq at 1. rewrite lincomb_map.
  rewrite (map_ext_in _ (fun _ => 0)); [rewrite map_zero, Hq; reflexivity|].
  intros a _. rewrite <- HX at 1. rewrite <- (length_basis_polys (chebpts2_values np n)).
  rewrite <- (length_map (fun v => derivative (polyval v) a)).
  rewrite dot_ones. apply sum_basis_differences; [exact Hnd | lia].
Qed.

Lemma K_of_ones (n : nat) :
  (1 <= n)%nat -> numpy_shapes np n -> nodes_distinct np n ->
  mat_vec (K_of np n) (repeat 1 n) = repeat 0 n.
Proof.
  intros Hn Hs Hnd. unfold K_of, mat_vec, gram. rewrite map_map.
  pose proof (length_D_of n Hs) as HD.
  rewrite (map_ext _ (fun _ => 0)); [rewrite map_zero; f_equal; exact HD|].
  intros Di. rewrite (dot_sum3 Di _ (repeat 1 n) (D_of np n) n).
  - rewrite D_of_column_sums by assumption. apply sum3_zeros.
  - intros r Hr. rewrite (D_of_rows np n r Hr). apply Hs.
Qed.

Lemma dot_repeat_scale (r : vector) (c : F) (n : nat) :
  dot r (repeat c n) = c * dot r (repeat 1 n).
Proof.
  revert n; induction r as [|x r IH]; intros [|n]; simpl; try ring.
  rewrite IH. ring.
Qed.

(** Every constant vector is in the null space of [K]. *)
Lemma K_of_constants (n : nat) (c : F) :
  (1 <= n)%nat -> numpy_shapes np n -> nodes_distinct np n ->
  mat_vec (K_of np n) (repeat c n) = repeat 0 n.
Proof.
  intros Hn Hs Hnd. pose proof (K_of_ones n Hn Hs Hnd) as H1.
  unfold mat_vec in *.
  rewrite (map_ext _ (fun row => c * dot row (repeat 1 n)))
    by (intros; apply dot_repeat_scale).
  rewrite <- (map_map (fun row => dot row (repeat 1 n)) (fun y => c * y)).
  rewrite H1. clear H1 Hs Hnd Hn. induction n as [|n IH]; simpl; [reflexivity|].
  rewrite IH. f_equal. ring.
Qed.

End WithNumPy2.

(** *** Positivity *)

Lemma weighted_square_nonneg (x y : F) : 0 < y -> nonneg (x * y * x).
Proof.
  intros Hy. replace (x * y * x) with (y * (x * x)) by ring.
  apply nonneg_mul; [right; exact Hy | apply square_nonneg].
Qed.

Lemma weighted_square_zero (x y : F) : 0 < y -> x * y * x = 0 -> x = 0.
Proof.
  intros Hy E. destruct (lt_total x 0) as [H | [H | H]]; [|exact H|]; exfalso.
  - apply (lt_neq 0 (x * y * x)); [|symmetry; exact E].
    replace (x * y * x) with (y * (- x * - x)) by ring.
    apply mul_pos; [exact Hy | apply mul_pos; apply opp_pos; exact H].
  - apply (lt_neq 0 (x * y * x)); [|symmetry; exact E].
    replace (x * y * x) with (y * (x * x)) by ring.
    apply mul_pos; [exact Hy | apply mul_pos; exact H].
Qed.

Lemma sum3_square_nonneg (u w : vector) :
  Forall (fun wa => 0 < wa) w -> nonneg (sum3 u w u).
Proof.
  revert w; induction u as [|x u IH]; intros [|y w] Hw; simpl;
    try (left; reflexivity).
  inversion Hw; subst. apply nonneg_add.
  - apply weighted_square_nonneg. assumption.
  - apply IH. assumption.
Qed.

Lemma sum3_square_zero (u w : vector) :
  Forall (fun wa => 0 < wa) w -> length u = length w ->
  sum3 u w u = 0 -> forall a, In a u -> a = 0.
Proof.
  revert w; induction u as [|x u IH]; intros [|y w] Hw Hlen E a Ha;
    simpl in *; try contradiction; try discriminate.
  inversion Hw; subst.
  apply nonneg_add_eq_0 in E;
    [| apply weighted_square_nonneg; assumption
     | apply sum3_square_nonneg; assumption].
  destruct E as [E1 E2]. destruct Ha as [Ha | Ha].
  - subst a. apply (weighted_square_zero x y); assumption.
  - apply (IH w); try assumption. lia.
Qed.

Lemma dot_seq (g : nat -> F) (x : vector) (s : nat) :
  dot x (map g (seq s (length x)))
  = sum (map (fun i => nth (i - s) x 0 * g i) (seq s (length x))).
Proof.
  revert s; induction x as [|a x IH]; intros s; simpl; [reflexivity|].
  rewrite Nat.sub_diag. rewrite IH. f_equal.
  apply sum_map_ext. intros i Hi. apply in_seq in Hi.
  replace (i - s)%nat with (S (i - S s)) by lia. reflexivity.
Qed.

(** A combination of the basis polynomials is the interpolant of its
    coefficients. *)
Lemma dot_basis_polys (X x : vector) (a : F) :
  length x = length X ->
  dot x (map (fun v => polyval v a) (basis_polys X))
  = polyval (lagrange_poly X x) a.
Proof.
  intros Hx. unfold basis_polys. rewrite map_map, <- Hx, dot_seq.
  rewrite polyval_lagrange_poly, <- Hx. apply sum_map_ext.
  intros i Hi. apply in_seq in Hi. rewrite Nat.sub_0_r.
  rewrite polyval_basis_poly by lia. reflexivity.
Qed.

Lemma all_zero_repeat (x : vector) :
  (forall a, In a x -> a = 0) -> x = repeat 0 (length x).
Proof.
  induction x as [|a x IH]; intros H; simpl; [reflexivity|].
  rewrite (H a) by (left; reflexivity). f_equal.
  apply IH. intros; apply H; right; assumption.
Qed.

Lemma dot_vadd_l (a b x : vector) :
  length a = length b -> dot (vadd a b) x = dot a x + dot b x.
Proof.
  revert b x; induction a as [|y a IH]; intros [|z b] [|t x] H; simpl in *;
    try discriminate; try ring.
  rewrite IH by lia. ring.
Qed.

Lemma mat_vec_madd (K M : matrix) (x : vector) (n : nat) :
  (forall r, In r K -> length r = n) -> (forall r, In r M -> length r = n) ->
  mat_vec (madd K M) x = vadd (mat_vec K x) (mat_vec M x).
Proof.
  revert M; induction K as [|r K IH]; intros [|s M] HK HM; simpl;
    try reflexivity.
  rewrite dot_vadd_l.
  - f_equal. apply IH; intros; [apply HK | apply HM]; right; assumption.
  - rewrite (HK r), (HM s) by (left; reflexivity). reflexivity.
Qed.

Lemma quad_form_madd (K M : matrix) (x : vector) (n : nat) :
  is_square n K -> is_square n M ->
  quad_form (madd K M) x = quad_form K x + quad_form M x.
Proof.
  intros [HK HKr] [HM HMr]. unfold quad_form.
  rewrite (mat_vec_madd K M x n HKr HMr).
  rewrite (dot_comm x), dot_vadd_l, !(dot_comm x); [reflexivity|].
  unfold mat_vec. rewrite !length_map.
  transitivity n; [exact HK | symmetry; exact HM].
Qed.

Lemma nth_vadd (a b : vector) (j : nat) :
  length a = length b -> nth j (vadd a b) 0 = nth j a 0 + nth j b 0.
Proof.
  revert b j; induction a as [|y a IH]; intros [|z b] [|j] H; simpl in *;
    try discriminate; try ring.
  apply IH. lia.
Qed.

Lemma nth_madd (K M : matrix) (i : nat) :
  length K = length M ->
  nth i (madd K M) [] = vadd (nth i K []) (nth i M []).
Proof.
  revert M i; induction K as [|r K IH]; intros [|s M] [|i] H; simpl in *;
    try discriminate; try reflexivity.
  apply IH. lia.
Qed.

Lemma length_row (m : matrix) (n i : nat) :
  is_square n m -> length (nth i m []) = if i <? n then n else 0%nat.
Proof.
  intros [Hlen Hrows]. destruct (Nat.ltb_spec i n) as [Hi | Hi].
  - apply Hrows. apply nth_In. rewrite Hlen. exact Hi.
  - rewrite nth_overflow by (rewrite Hlen; exact Hi). reflexivity.
Qed.

Lemma entry_madd (K M : matrix) (n i j : nat) :
  is_square n K -> is_square n M ->
  entry (madd K M) i j = entry K i j + entry M i j.
Proof.
  intros HK HM. unfold entry.
  rewrite nth_madd by (transitivity n; [apply HK | symmetry; apply HM]).
  apply nth_vadd. rewrite (length_row K n i HK), (length_row M n i HM).
  reflexivity.
Qed.

Lemma length_madd (K M : matrix) :
  length K = length M -> length (madd K M) = length K.
Proof.
  revert M; induction K as [|r K IH]; intros [|s M] H; simpl in *;
    try discriminate; try reflexivity.
  f_equal. apply IH. lia.
Qed.

Lemma in_madd (K M : matrix) (t : vector) :
  In t (madd K M) -> exists r s, In r K /\ In s M /\ t = vadd r s.
Proof.
  revert M; induction K as [|r K IH]; intros [|s M] H; simpl in *;
    try contradiction.
  destruct H as [E | H].
  - exists r, s. auto.
  - destruct (IH M H) as [r' [s' [Hr [Hs E]]]]. exists r', s'. auto.
Qed.

Lemma madd_square (K M : matrix) (n : nat) :
  is_square n K -> is_square n M -> is_square n (madd K M).
Proof.
  intros [HK HKr] [HM HMr]. split.
  - rewrite length_madd; [exact HK | transitivity n; [exact HK | symmetry; exact HM]].
  - intros t Ht. apply in_madd in Ht. destruct Ht as [r [s [Hr [Hs E]]]].
    subst t. rewrite length_vadd; [apply HKr; exact Hr|].
    rewrite (HKr r Hr), (HMr s Hs). reflexivity.
Qed.

(** *** Entries of the evaluation matrices *)

Lemma entry_evaluations (g : poly1d -> F -> F) (vs : list poly1d) (q : vector)
  (i a : nat) :
  (i < length vs)%nat -> (a < length q)%nat ->
  entry (map (fun v => map (g v) q) vs) i a = g (nth i vs []) (nth a q 0).
Proof.
  intros Hi Ha. unfold entry.
  rewrite (nth_indep _ [] ((fun v => map (g v) q) []))
    by (rewrite length_map; exact Hi).
  rewrite (map_nth (fun v => map (g v) q) vs [] i).
  rewrite (nth_indep _ 0 (g (nth i vs []) 0)) by (rewrite length_map; exact Ha).
  apply (map_nth (g (nth i vs [])) q 0 a).
Qed.

Lemma nth_basis_polys (X : vector) (i : nat) :
  (i < length X)%nat -> nth i (basis_polys X) [] = basis_poly X i.
Proof.
  intros Hi. unfold basis_polys.
  rewrite (nth_indep _ [] (basis_poly X 0))
    by (rewrite length_map, length_seq; exact Hi).
  rewrite (map_nth (basis_poly X) (seq 0 (length X)) 0%nat i).
  rewrite seq_nth by exact Hi. reflexivity.
Qed.

Section WithNumPy4.

Variable np : NumPy.

(** [B[i, alpha]] is the [i]-th cardinal function at [q[alpha]];
    [D[i, alpha]] is the central difference, of step 1, of the [i]-th
    basis polynomial at [q[alpha]]. *)
Lemma entry_B_of (n i a : nat) :
  numpy_shapes np n -> (i < n)%nat -> (a < n)%nat ->
  entry (B_of np n) i a
  = ell (chebpts2_values np n) i (nth a (fst (leggauss_values np n)) 0).
Proof.
  intros [HX [Hq Hw]] Hi Ha. unfold B_of, values_at.
  rewrite (entry_evaluations polyval)
    by (rewrite ?length_basis_polys, ?HX, ?Hq; assumption).
  rewrite nth_basis_polys by (rewrite HX; exact Hi).
  apply polyval_basis_poly. rewrite HX. exact Hi.
Qed.

Lemma entry_D_of (n i a : nat) :
  numpy_shapes np n -> (i < n)%nat -> (a < n)%nat ->
  entry (D_of np n) i a
  = derivative (polyval (basis_poly (chebpts2_values np n) i))
               (nth a (fst (leggauss_values np n)) 0).
Proof.
  intros [HX [Hq Hw]] Hi Ha. unfold D_of, differences_at.
  rewrite (entry_evaluations (fun v => derivative (polyval v)))
    by (rewrite ?length_basis_polys, ?HX, ?Hq; assumption).
  rewrite nth_basis_polys by (rewrite HX; exact Hi). reflexivity.
Qed.

Lemma entry_D_exact (n i a : nat) :
  numpy_shapes np n -> (i < n)%nat -> (a < n)%nat ->
  entry (D_exact np n) i a
  = polyval (polyder (basis_poly (chebpts2_values np n) i))
            (nth a (fst (leggauss_values np n)) 0).
Proof.
  intros [HX [Hq Hw]] Hi Ha. unfold D_exact, derivatives_at.
  rewrite (entry_evaluations (fun v => polyval (polyder v)))
    by (rewrite ?length_basis_polys, ?HX, ?Hq; assumption).
  rewrite nth_basis_polys by (rewrite HX; exact Hi). reflexivity.
Qed.

End WithNumPy4.

(** On polynomials of degree at most two the central difference is the
    derivative; a cubic term [c3 t^3] adds [c3] to it. *)
Lemma derivative_of_cubic (c0 c1 c2 c3 a : F) :
  derivative (polyval [c0; c1; c2; c3]) a
  = polyval (polyder [c0; c1; c2; c3]) a + c3.
Proof.
  rewrite derivative_eq. simpl. field. exact two_neq_0.
Qed.

Lemma derivative_of_quadratic (c0 c1 c2 a : F) :
  derivative (polyval [c0; c1; c2]) a = polyval (polyder [c0; c1; c2]) a.
Proof.
  rewrite derivative_eq. simpl. field. exact two_neq_0.
Qed.

Section WithNumPy3.

Variable np : NumPy.

Lemma K_of_square (n : nat) : numpy_shapes np n -> is_square n (K_of np n).
Proof.
  intros Hs. unfold K_of. rewrite <- (length_D_of np n Hs) at 1.
  apply gram_square.
Qed.

Lemma M_of_square (n : nat) : numpy_shapes np n -> is_square n (M_of np n).
Proof.
  intros Hs. unfold M_of. rewrite <- (length_B_of np n Hs) at 1.
  apply gram_square.
Qed.

Lemma A_of_square (n : nat) : numpy_shapes np n -> is_square n (A_of np n).
Proof.
  intros Hs. apply madd_square; [apply K_of_square | apply M_of_square]; exact Hs.
Qed.


(** The stiffness form is a weighted sum of squares. *)
Lemma K_of_nonneg (n : nat) (x : vector) :
  numpy_shapes np n -> weights_positive np n ->
  nonneg (quad_form (K_of np n) x).
Proof.
  intros Hs Hw. unfold K_of. rewrite (quad_form_gram _ _ x n).
  - apply sum3_square_nonneg. exact Hw.
  - intros r Hr. rewrite (D_of_rows np n r Hr). apply Hs.
Qed.

(** In the mass form the squares are the values, at the quadrature points,
    of the interpolant of [x]. *)
Lemma B_of_lincomb (n : nat) (x : vector) :
  numpy_shapes np n -> length x = n ->
  lincomb n x (B_of np n)
  = map (polyval (lagrange_poly (chebpts2_values np n) x))
        (fst (leggauss_values np n)).
Proof.
  intros [HX [Hq Hw]] Hx. unfold B_of, values_at.
  rewrite <- Hq at 1. rewrite lincomb_map. apply map_ext.
  intros a. apply dot_basis_polys. rewrite HX. exact Hx.
Qed.

Theorem M_of_positive (n : nat) (x : vector) :
  (1 <= n)%nat -> numpy_shapes np n ->
  nodes_distinct np n -> points_distinct np n -> weights_positive np n ->
  length x = n -> x <> repeat 0 n ->
  0 < quad_form (M_of np n) x.
Proof.
  intros Hn Hs HndX Hndq Hwpos Hx Hx0.
  assert (Hrows : forall r, In r (B_of np n) -> length r = n)
    by (intros r Hr; rewrite (B_of_rows np n r Hr); apply Hs).
  unfold M_of. rewrite (quad_form_gram _ _ x n Hrows).
  rewrite (B_of_lincomb n x Hs Hx).
  set (p := lagrange_poly (chebpts2_values np n) x).
  destruct Hs as [HX [Hq Hw]].
  destruct (sum3_square_nonneg (map (polyval p) (fst (leggauss_values np n)))
              (snd (leggauss_values np n)) Hwpos) as [E | H]; [|exact H].
  exfalso. apply Hx0. rewrite <- Hx. apply all_zero_repeat.
  assert (Hp : forall t, polyval p t = 0).
  { apply (roots_bound (fst (leggauss_values np n)) Hndq).
    - rewrite Hq, <- HX. apply length_lagrange_poly. rewrite HX. exact Hn.
    - intros r Hr.
      apply (sum3_square_zero _ _ Hwpos) with (a := polyval p r) in E.
      + exact E.
      + rewrite length_map, Hq, Hw. reflexivity.
      + apply in_map. exact Hr. }
  intros a Ha. apply (In_nth x a 0) in Ha. destruct Ha as [m [Hm Ea]].
  subst a. rewrite <- (interp_at_node (chebpts2_values np n) x m HndX)
    by (rewrite HX, <- Hx; exact Hm).
  apply Hp.
Qed.

Theorem A_of_positive (n : nat) (x : vector) :
  (1 <= n)%nat -> numpy_shapes np n ->
  nodes_distinct np n -> points_distinct np n -> weights_positive np n ->
  length x = n -> x <> repeat 0 n ->
  0 < quad_form (A_of np n) x.
Proof.
  intros Hn Hs HndX Hndq Hwpos Hx Hx0. unfold A_of.
  rewrite (quad_form_madd _ _ x n (K_of_square n Hs) (M_of_square n Hs)).
  apply nonneg_add_pos.
  - apply K_of_nonneg; assumption.
  - apply M_of_positive; assumption.
Qed.

End WithNumPy3.

(** *** More on interpolation *)

(** The interpolant of the samples of a polynomial with no more
    coefficients than there are nodes is that polynomial. *)
Theorem lagrange_poly_reproduces (X : vector) (p : poly1d) (t : F) :
  NoDup X -> (1 <= length X)%nat -> (length p <= length X)%nat ->
  polyval (lagrange_poly X (map (polyval p) X)) t = polyval p t.
Proof.
  intros Hnd Hlen Hp.
  set (v := lagrange_poly X (map (polyval p) X)).
  assert (H : polyval (polyadd v (polyscale (- (1)) p)) t = 0).
  { apply (roots_bound X Hnd).
    - rewrite length_polyadd. unfold polyscale. rewrite length_map.
      pose proof (length_lagrange_poly X (map (polyval p) X) Hlen) as Hv.
      fold v in Hv. lia.
    - intros r Hr. apply (In_nth X r 0) in Hr. destruct Hr as [m [Hm Er]].
      subst r. rewrite polyval_polyadd, polyval_polyscale. unfold v.
      rewrite interp_at_node by assumption.
      rewrite (nth_indep _ 0 (polyval p 0)) by (rewrite length_map; exact Hm).
      rewrite (map_nth (polyval p) X 0 m). ring. }
  rewrite polyval_polyadd, polyval_polyscale in H.
  transitivity (polyval v t + - (1) * polyval p t + polyval p t);
    [ring | rewrite H; ring].
Qed.

(** A data vector shorter than the node vector makes [lagrange] fail at
    its first missing entry. *)
Lemma lagrange_short_data (x w : vector) :
  (length w < length x)%nat -> lagrange x w = Raise IndexError.
Proof.
  intros Hw. unfold lagrange.
  replace (length x) with (length w + S (length x - S (length w)))%nat by lia.
  rewrite seq_app, foldM_app.
  rewrite (foldM_pure (lagrange_term x w) (lagrange_term_pure x w)).
  - cbn [bind seq foldM Nat.add]. unfold lagrange_term at 1. unfold getitem.
    replace (nth_error w (length w)) with (@None F); [reflexivity|].
    symmetry. apply nth_error_None. lia.
  - intros s j Hj. apply in_seq in Hj. unfold lagrange_term, lagrange_term_pure.
    rewrite (getitem_nth w j 0) by lia. cbn [bind].
    rewrite (foldM_pure (lagrange_factor x j) (lagrange_factor_pure x j)).
    + reflexivity.
    + intros s' k Hk. apply in_seq in Hk. apply lagrange_factor_ok; lia.
Qed.

Lemma lagrange_poly_nonempty (x w : vector) : lagrange_poly x w <> [].
Proof.
  unfold lagrange_poly.
  assert (H : forall js p, p <> [] -> fold_left (lagrange_term_pure x w) js p <> []).
  { induction js as [|j js IH]; intros p Hp; simpl; [exact Hp|].
    apply IH. unfold lagrange_term_pure.
    destruct p as [|a p']; [contradiction|].
    destruct (fold_left (lagrange_factor_pure x j) (seq 0 (length x)) [nth j w 0]);
      discriminate. }
  apply H. discriminate.
Qed.

(** *** Differences and derivatives of low degree *)

Lemma derivative_exact_low_degree (p : poly1d) (a : F) :
  (length p <= 3)%nat -> derivative (polyval p) a = polyval (polyder p) a.
Proof.
  intros Hp. rewrite derivative_eq.
  destruct p as [|c0 [|c1 [|c2 [|c3 p]]]]; simpl in *; try lia;
    field; exact two_neq_0.
Qed.

(** *** Integration *)

Lemma polyder_polyprim_from (k : F) (p : poly1d) :
  0 < k -> polyder_from k (polyprim_from k p) = p.
Proof.
  revert k; induction p as [|c p IH]; intros k Hk; simpl; [reflexivity|].
  rewrite IH by (apply add_pos; [exact Hk | exact one_pos]).
  f_equal. field. intros E. apply (lt_neq 0 k Hk). symmetry. exact E.
Qed.

(** [polyprim] is an antiderivative. *)
Lemma polyder_polyprim (p : poly1d) : polyder (polyprim p) = p.
Proof. unfold polyprim. simpl. apply polyder_polyprim_from. exact one_pos. Qed.

Lemma length_polymul_le (p q : poly1d) :
  (length (polymul p q) <= length p + length q)%nat.
Proof.
  induction p as [|a p IH]; simpl; [lia|].
  rewrite length_polyadd. unfold polyscale. rewrite length_map. simpl. lia.
Qed.

Lemma sum3_as_dot (f g : F -> F) (q w : vector) :
  sum3 (map f q) w (map g q) = dot w (map (fun a => f a * g a) q).
Proof.
  revert w; induction q as [|a q IH]; intros [|y w]; simpl; try reflexivity.
  rewrite IH. ring.
Qed.

Lemma length_polyder (p : poly1d) : length (polyder p) = pred (length p).
Proof.
  destruct p as [|c p]; [reflexivity|]. simpl.
  generalize (1 : F). induction p as [|c' p IH]; intros k; simpl;
    [reflexivity | rewrite IH; reflexivity].
Qed.

(** *** The identity matrix *)

Lemma nth_identity (n i : nat) :
  (i < n)%nat -> nth i (identity n) [] = unit_vector n i.
Proof.
  intros Hi. unfold identity.
  rewrite (nth_indep _ [] (unit_vector n 0))
    by (rewrite length_map, length_seq; exact Hi).
  rewrite (map_nth (unit_vector n) (seq 0 n) 0%nat i), seq_nth by exact Hi.
  reflexivity.
Qed.

Lemma identity_square (n : nat) : is_square n (identity n).
Proof.
  unfold identity. split; [rewrite length_map, length_seq; reflexivity|].
  intros r Hr. apply in_map_iff in Hr. destruct Hr as [i [E _]]. subst r.
  apply length_unit_vector.
Qed.

Lemma entry_identity (n i j : nat) :
  (i < n)%nat -> entry (identity n) i j = if Nat.eqb j i then 1 else 0.
Proof.
  intros Hi. unfold entry. rewrite nth_identity by exact Hi.
  apply nth_unit_vector. exact Hi.
Qed.

(** *** Rows of the evaluation matrices *)

Lemma nth_evaluations (g : poly1d -> F -> F) (vs : list poly1d) (q : vector)
  (i : nat) :
  (i < length vs)%nat ->
  nth i (map (fun v => map (g v) q) vs) [] = map (g (nth i vs [])) q.
Proof.
  intros Hi.
  rewrite (nth_indep _ [] ((fun v => map (g v) q) []))
    by (rewrite length_map; exact Hi).
  apply (map_nth (fun v => map (g v) q) vs [] i).
Qed.

Section WithNumPy5.

Variable np : NumPy.

Lemma nth_B_of (n i : nat) :
  numpy_shapes np n -> (i < n)%nat ->
  nth i (B_of np n) []
  = map (polyval (basis_poly (chebpts2_values np n) i))
        (fst (leggauss_values np n)).
Proof.
  intros [HX _] Hi. unfold B_of, values_at.
  rewrite (nth_evaluations polyval) by (rewrite length_basis_polys, HX; exact Hi).
  rewrite nth_basis_polys by (rewrite HX; exact Hi). reflexivity.
Qed.

Lemma nth_D_of (n i : nat) :
  numpy_shapes np n -> (i < n)%nat ->
  nth i (D_of np n) []
  = map (derivative (polyval (basis_poly (chebpts2_values np n) i)))
        (fst (leggauss_values np n)).
Proof.
  intros [HX _] Hi. unfold D_of, differences_at.
  rewrite (nth_evaluations (fun v => derivative (polyval v)))
    by (rewrite length_basis_polys, HX; exact Hi).
  rewrite nth_basis_polys by (rewrite HX; exact Hi). reflexivity.
Qed.

Lemma length_basis_poly (n i : nat) :
  (1 <= n)%nat -> numpy_shapes np n ->
  (length (basis_poly (chebpts2_values np n) i) <= n)%nat.
Proof.
  intros Hn [HX _]. unfold basis_poly. rewrite <- HX at 3.
  apply length_lagrange_poly. rewrite HX. exact Hn.
Qed.

(** With an exact rule, [M[i, j]] is the integral of the product of the
    basis polynomials [i] and [j]. *)
Lemma entry_M_of_exact (n i j : nat) :
  (1 <= n)%nat -> numpy_shapes np n -> quadrature_exact np n ->
  (i < n)%nat -> (j < n)%nat ->
  entry (M_of np n) i j
  = integrate (polymul (basis_poly (chebpts2_values np n) i)
                       (basis_poly (chebpts2_values np n) j)).
Proof.
  intros Hn Hs Hex Hi Hj. unfold M_of.
  rewrite entry_gram by (rewrite length_B_of by exact Hs; assumption).
  rewrite !nth_B_of by assumption. rewrite sum3_as_dot.
  rewrite <- (Hex (polymul _ _)).
  - f_equal. apply map_ext. intros a. symmetry. apply polyval_polymul.
  - pose proof (length_polymul_le (basis_poly (chebpts2_values np n) i)
                  (basis_poly (chebpts2_values np n) j)) as H.
    pose proof (length_basis_poly n i Hn Hs).
    pose proof (length_basis_poly n j Hn Hs). lia.
Qed.

(** With an exact rule and at most three nodes, [K[i, j]] is the integral
    of the product of the derivatives of the basis polynomials. *)
Lemma entry_K_of_exact (n i j : nat) :
  (1 <= n <= 3)%nat -> numpy_shapes np n -> quadrature_exact np n ->
  (i < n)%nat -> (j < n)%nat ->
  entry (K_of np n) i j
  = integrate (polymul (polyder (basis_poly (chebpts2_values np n) i))
                       (polyder (basis_poly (chebpts2_values np n) j))).
Proof.
  intros Hn Hs Hex Hi Hj. unfold K_of.
  rewrite entry_gram by (rewrite length_D_of by exact Hs; assumption).
  rewrite !nth_D_of by assumption.
  pose proof (length_basis_poly n i ltac:(lia) Hs) as Li.
  pose proof (length_basis_poly n j ltac:(lia) Hs) as Lj.
  rewrite (map_ext _ (polyval (polyder (basis_poly (chebpts2_values np n) i))))
    by (intros a; apply derivative_exact_low_degree; lia).
  rewrite (map_ext (derivative _)
                   (polyval (polyder (basis_poly (chebpts2_values np n) j))))
    by (intros a; apply derivative_exact_low_degree; lia).
  rewrite sum3_as_dot. rewrite <- (Hex (polymul _ _)).
  - f_equal. apply map_ext. intros a. symmetry. apply polyval_polymul.
  - pose proof (length_polymul_le
                  (polyder (basis_poly (chebpts2_values np n) i))
                  (polyder (basis_poly (chebpts2_values np n) j))) as H.
    rewrite !length_polyder in H. lia.
Qed.

End WithNumPy5.

(** *** Totals and diagonals *)

Lemma dot_ones_r (l : vector) (n : nat) :
  length l = n -> dot l (repeat 1 n) = sum l.
Proof. intros H. subst n. rewrite dot_comm. apply dot_ones. Qed.

Lemma quad_form_ones (m : matrix) (n : nat) :
  is_square n m -> quad_form m (repeat 1 n) = total m.
Proof.
  intros [Hlen Hrows]. unfold quad_form, mat_vec, total.
  rewrite (map_ext_in _ sum) by (intros r Hr; apply dot_ones_r, Hrows, Hr).
  rewrite dot_comm. apply dot_ones_r. rewrite length_map. exact Hlen.
Qed.

Lemma dot_zeros_r (l : vector) (n : nat) : dot l (repeat 0 n) = 0.
Proof.
  revert n; induction l as [|a l IH]; intros [|n]; simpl; try reflexivity.
  rewrite IH. ring.
Qed.

Lemma sum3_ones (q w : vector) :
  length q = length w ->
  sum3 (map (fun _ => 1) q) w (map (fun _ => 1) q) = sum w.
Proof.
  revert w; induction q as [|a q IH]; intros [|y w] H; simpl in *;
    try discriminate; try reflexivity.
  rewrite IH by lia. ring.
Qed.

Lemma dot_unit_vector (n i : nat) (y : vector) :
  (i < n)%nat -> dot (unit_vector n i) y = nth i y 0.
Proof.
  unfold unit_vector. revert i y; induction n as [|n IH]; intros i y Hi; [lia|].
  destruct i as [|i]; destruct y as [|y0 y]; simpl; try reflexivity.
  - rewrite (dot_comm (repeat 0 n) y), dot_zeros_r. ring.
  - rewrite IH by lia. ring.
Qed.

Lemma quad_form_unit (m : matrix) (n i : nat) :
  is_square n m -> (i < n)%nat ->
  quad_form m (unit_vector n i) = entry m i i.
Proof.
  intros [Hlen Hrows] Hi. unfold quad_form, mat_vec, entry.
  rewrite dot_unit_vector by exact Hi.
  change 0 with (dot [] (unit_vector n i)) at 1.
  rewrite (map_nth (fun row => dot row (unit_vector n i)) m [] i).
  rewrite dot_comm. apply dot_unit_vector. exact Hi.
Qed.

Lemma unit_vector_nonzero (n i : nat) :
  (i < n)%nat -> unit_vector n i <> repeat 0 n.
Proof.
  intros Hi E. apply (f_equal (fun l => nth i l 0)) in E.
  rewrite nth_unit_vector, Nat.eqb_refl in E by exact Hi.
  rewrite nth_repeat_lt in E by exact Hi. exact (one_neq_0 E).
Qed.

Section WithNumPy6.

Variable np : NumPy.

(** The entries of [M] add up to the sum of the weights, and so do those
    of [A], those of [K] adding up to zero. *)
Lemma total_M_of (n : nat) :
  (1 <= n)%nat -> numpy_shapes np n -> nodes_distinct np n ->
  total (M_of np n) = sum (snd (leggauss_values np n)).
Proof.
  intros Hn Hs Hnd. rewrite <- (quad_form_ones _ n (M_of_square np n Hs)).
  assert (Hrows : forall r, In r (B_of np n) -> length r = n)
    by (intros r Hr; rewrite (B_of_rows np n r Hr); apply Hs).
  unfold M_of. rewrite (quad_form_gram _ _ _ n Hrows).
  rewrite (B_of_lincomb np n (repeat 1 n) Hs) by apply repeat_length.
  destruct Hs as [HX [Hq Hw]].
  rewrite (map_ext _ (fun _ => 1)).
  - apply sum3_ones. rewrite Hq, Hw. reflexivity.
  - intros a. rewrite <- HX at 2. rewrite lagrange_poly_ones.
    apply partition_of_unity; [exact Hnd | rewrite HX; exact Hn].
Qed.

Lemma total_K_of (n : nat) :
  (1 <= n)%nat -> numpy_shapes np n -> nodes_distinct np n ->
  total (K_of np n) = 0.
Proof.
  intros Hn Hs Hnd. rewrite <- (quad_form_ones _ n (K_of_square np n Hs)).
  unfold quad_form. rewrite K_of_ones by assumption. apply dot_zeros_r.
Qed.

Lemma total_A_of (n : nat) :
  (1 <= n)%nat -> numpy_shapes np n -> nodes_distinct np n ->
  total (A_of np n) = sum (snd (leggauss_values np n)).
Proof.
  intros Hn Hs Hnd. rewrite <- (quad_form_ones _ n (A_of_square np n Hs)).
  unfold A_of.
  rewrite (quad_form_madd _ _ _ n (K_of_square np n Hs) (M_of_square np n Hs)).
  rewrite !(quad_form_ones _ n) by (try apply K_of_square; try apply M_of_square; exact Hs).
  rewrite total_K_of, total_M_of by assumption. ring.
Qed.

Lemma diagonal_M_of_positive (n i : nat) :
  (1 <= n)%nat -> numpy_shapes np n ->
  nodes_distinct np n -> points_distinct np n -> weights_positive np n ->
  (i < n)%nat -> 0 < entry (M_of np n) i i.
Proof.
  intros Hn Hs HX Hq Hw Hi.
  rewrite <- (quad_form_unit _ n i (M_of_square np n Hs) Hi).
  apply M_of_positive; try assumption.
  - apply length_unit_vector.
  - apply unit_vector_nonzero. exact Hi.
Qed.

Lemma diagonal_A_of_positive (n i : nat) :
  (1 <= n)%nat -> numpy_shapes np n ->
  nodes_distinct np n -> points_distinct np n -> weights_positive np n ->
  (i < n)%nat -> 0 < entry (A_of np n) i i.
Proof.
  intros Hn Hs HX Hq Hw Hi.
  rewrite <- (quad_form_unit _ n i (A_of_square np n Hs) Hi).
  apply A_of_positive; try assumption.
  - apply length_unit_vector.
  - apply unit_vector_nonzero. exact Hi.
Qed.

End WithNumPy6.

(** *** Order of reciprocals *)

Lemma lt_sub_pos (x y : F) : x < y -> 0 < y - x.
Proof.
  intros H. pose proof (add_lt_mono x y (- x) H) as H1.
  replace (x + - x) with 0 in H1 by ring.
  replace (y + - x) with (y - x) in H1 by ring. exact H1.
Qed.

Lemma pos_sub_lt (x y : F) : 0 < y - x -> x < y.
Proof.
  intros H. pose proof (add_lt_mono 0 (y - x) x H) as H1.
  replace (0 + x) with x in H1 by ring.
  replace (y - x + x) with y in H1 by ring. exact H1.
Qed.

Lemma inv_pos (x : F) : 0 < x -> 0 < inv x.
Proof.
  intros Hx. assert (Hx0 : x <> 0)
    by (intros E; apply (lt_neq 0 x Hx); symmetry; exact E).
  destruct (lt_total (inv x) 0) as [H | [H | H]]; [| |exact H]; exfalso.
  - pose proof (mul_pos _ _ (opp_pos _ H) Hx) as H1.
    replace (- inv x * x) with (- (1)) in H1
      by (rewrite <- (inv_l x Hx0); ring).
    apply (lt_irrefl 0). replace 0 with (- (1) + 1) at 2 by ring.
    apply add_pos; [exact H1 | exact one_pos].
  - apply one_neq_0. rewrite <- (inv_l x Hx0), H. ring.
Qed.

Lemma reciprocal_pos (x : F) : 0 < x -> 0 < 1 / x.
Proof.
  intros Hx. rewrite div_def. replace (1 * inv x) with (inv x) by ring.
  apply inv_pos. exact Hx.
Qed.

Lemma reciprocal_decreasing (x y : F) : 0 < x -> x < y -> 1 / y < 1 / x.
Proof.
  intros Hx Hxy. assert (Hy : 0 < y) by (apply lt_trans with x; assumption).
  apply pos_sub_lt.
  replace (1 / x - 1 / y) with ((y - x) * (inv x * inv y)).
  - apply mul_pos; [apply lt_sub_pos; exact Hxy|].
    apply mul_pos; apply inv_pos; assumption.
  - field. split; intros E; [apply (lt_neq 0 y Hy) | apply (lt_neq 0 x Hx)];
      symmetry; exact E.
Qed.

Lemma reciprocal_neg (x : F) : x < 0 -> 1 / x < 0.
Proof.
  intros Hx. pose proof (reciprocal_pos (- x) (opp_pos x Hx)) as H.
  assert (Hx0 : x <> 0) by (apply lt_neq; exact Hx).
  apply pos_sub_lt. replace (0 - 1 / x) with (1 / - x); [exact H|].
  rewrite !div_def.
  transitivity (inv (- x) * (x * inv x));
    [replace (x * inv x) with 1 by (rewrite <- (inv_l x Hx0); ring); ring|].
  transitivity (- (inv (- x) * - x) * inv x); [ring|].
  rewrite inv_l; [ring|].
  intros E. apply Hx0. transitivity (- - x); [ring | rewrite E; ring].
Qed.

Lemma of_pos_succ (p : positive) : of_pos (Pos.succ p) = of_pos p + 1.
Proof.
  induction p as [p IH | p IH |]; simpl; [rewrite IH; ring | ring | ring].
Qed.

Lemma of_pos_lt (p q : positive) : (p < q)%positive -> of_pos p < of_pos q.
Proof.
  intros H. revert q H. apply Pos.lt_ind.
  - rewrite of_pos_succ. apply pos_sub_lt.
    replace (of_pos p + 1 - of_pos p) with 1 by ring. exact one_pos.
  - intros q _ IH. apply lt_trans with (of_pos q); [exact IH|].
    rewrite of_pos_succ. apply pos_sub_lt.
    replace (of_pos q + 1 - of_pos q) with 1 by ring. exact one_pos.
Qed.

Lemma of_Z_pos (z : Z) : (0 < z)%Z -> 0 < of_Z z.
Proof.
  destruct z as [|p|p]; intros H; try lia. simpl. apply of_pos_pos.
Qed.

Lemma of_Z_neg (z : Z) : (z < 0)%Z -> of_Z z < 0.
Proof.
  destruct z as [|p|p]; intros H; try lia. simpl.
  apply pos_sub_lt. replace (0 - - of_pos p) with (of_pos p) by ring.
  apply of_pos_pos.
Qed.

Lemma of_Z_lt (a b : Z) : (0 < a)%Z -> (a < b)%Z -> of_Z a < of_Z b.
Proof.
  destruct a as [|p|p]; destruct b as [|q|q]; intros Ha Hab; try lia.
  simpl. apply of_pos_lt. exact Hab.
Qed.

Section WithNumPy7.

Variable np : NumPy.

(** Up to three nodes the matrix of differences is the matrix of
    derivatives. *)
Lemma D_of_is_exact (n : nat) :
  (1 <= n <= 3)%nat -> numpy_shapes np n -> D_of np n = D_exact np n.
Proof.
  intros Hn Hs. unfold D_of, D_exact, differences_at, derivatives_at.
  apply map_ext_in. intros v Hv. unfold basis_polys in Hv.
  apply in_map_iff in Hv. destruct Hv as [i [E _]]. subst v.
  apply map_ext. intros a. apply derivative_exact_low_degree.
  pose proof (length_basis_poly np n i ltac:(lia) Hs). lia.
Qed.

End WithNumPy7.

End Theory.

(** ** The rationals and the reals are ordered fields *)

#[export] Instance Qc_OrderedField : OrderedField Qc.
Proof.
  constructor.
  - exact Qcft.
  - intros x H. exact (Qclt_not_eq x x H eq_refl).
  - exact Qclt_trans.
  - intros x y. destruct (Qc_dec x y) as [[H | H] | H]; auto.
  - intros x y z H. change (Qclt (x + z)%Qc (y + z)%Qc).
    apply Qclt_minus_iff.
    replace (y + z + - (x + z))%Qc with (y + - x)%Qc by ring.
    apply (proj1 (Qclt_minus_iff x y)). exact H.
  - intros x y Hx Hy. pose proof (Qcmult_lt_compat_r 0%Qc x y Hy Hx) as H.
    rewrite Qcmult_0_l in H. exact H.
Qed.

#[export] Instance R_OrderedField : OrderedField R.
Proof.
  constructor.
  - exact Rfield.
  - exact Rlt_irrefl.
  - exact Rlt_trans.
  - exact Rtotal_order.
  - intros x y z H. apply Rplus_lt_compat_r. exact H.
  - exact Rmult_lt_0_compat.
Qed.

(** ** The Chebyshev points of the second kind are distinct *)

Lemma length_chebpts2_R (n : nat) : length (chebpts2_R n) = n.
Proof. unfold chebpts2_R. rewrite length_map, length_seq. reflexivity. Qed.

Lemma nth_chebpts2_R (n k : nat) :
  (k < n)%nat -> nth k (chebpts2_R n) 0%R = cos (linspace (- PI) 0 n k).
Proof.
  intros Hk. unfold chebpts2_R.
  rewrite (nth_indep _ 0%R ((fun k => cos (linspace (- PI) 0 n k)) 0%nat))
    by (rewrite length_map, length_seq; exact Hk).
  rewrite (map_nth (fun k => cos (linspace (- PI) 0 n k)) (seq 0 n) 0%nat k).
  rewrite seq_nth by exact Hk. reflexivity.
Qed.

Lemma linspace_range (n k : nat) :
  (k < n)%nat -> (- PI <= linspace (- PI) 0 n k <= 0)%R.
Proof.
  intros Hk. unfold linspace. pose proof PI_RGT_0 as Hpi.
  destruct (Nat.eq_dec n 1) as [E | Hn].
  - subst n. assert (k = 0%nat) by lia. subst k. simpl. lra.
  - assert (Hpos : (0 < INR (n - 1))%R) by (apply lt_0_INR; lia).
    assert (Hle : (INR k <= INR (n - 1))%R) by (apply le_INR; lia).
    assert (H0 : (0 <= INR k)%R) by apply pos_INR.
    replace (- PI + INR k * ((0 - - PI) / INR (n - 1)))%R
      with (- PI + PI * (INR k / INR (n - 1)))%R by (field; lra).
    assert (Hfrac : (0 <= INR k / INR (n - 1) <= 1)%R).
    { split.
      - apply Rmult_le_pos; [exact H0 | left; apply Rinv_0_lt_compat; exact Hpos].
      - apply (Rmult_le_reg_r (INR (n - 1))); [exact Hpos|].
        replace (INR k / INR (n - 1) * INR (n - 1))%R with (INR k) by (field; lra).
        lra. }
    nra.
Qed.

Lemma linspace_increasing (n j k : nat) :
  (j < k)%nat -> (k < n)%nat ->
  (linspace (- PI) 0 n j < linspace (- PI) 0 n k)%R.
Proof.
  intros Hjk Hk. unfold linspace. pose proof PI_RGT_0 as Hpi.
  assert (Hpos : (0 < INR (n - 1))%R) by (apply lt_0_INR; lia).
  assert (Hstep : (0 < (0 - - PI) / INR (n - 1))%R).
  { apply Rmult_lt_0_compat; [lra | apply Rinv_0_lt_compat; exact Hpos]. }
  assert (Hlt : (INR j < INR k)%R) by (apply lt_INR; exact Hjk).
  nra.
Qed.

(** The nodes are strictly increasing, as the specification's data model
    says. *)
Theorem chebpts2_R_increasing (n j k : nat) :
  (j < k)%nat -> (k < n)%nat ->
  (nth j (chebpts2_R n) 0 < nth k (chebpts2_R n) 0)%R.
Proof.
  intros Hjk Hk. rewrite !nth_chebpts2_R by lia.
  pose proof (linspace_range n j ltac:(lia)) as Hj'.
  pose proof (linspace_range n k Hk) as Hk'.
  pose proof (linspace_increasing n j k Hjk Hk) as Hlt.
  rewrite <- (cos_neg (linspace (- PI) 0 n j)), <- (cos_neg (linspace (- PI) 0 n k)).
  apply cos_decreasing_1; lra.
Qed.

Theorem chebpts2_R_NoDup (n : nat) : NoDup (chebpts2_R n).
Proof.
  apply (NoDup_nth (chebpts2_R n) 0%R). rewrite length_chebpts2_R.
  intros j k Hj Hk E.
  destruct (Nat.lt_trichotomy j k) as [H | [H | H]]; [|exact H|]; exfalso.
  - pose proof (chebpts2_R_increasing n j k H Hk). lra.
  - pose proof (chebpts2_R_increasing n k j H Hj). lra.
Qed.

Lemma np_R_nodes_distinct (rule : nat -> list R * list R) (n : nat) :
  nodes_distinct (np_R rule) n.
Proof. apply chebpts2_R_NoDup. Qed.

Lemma np_R_shapes (rule : nat -> list R * list R) (n : nat) :
  length (fst (rule n)) = n -> length (snd (rule n)) = n ->
  numpy_shapes (np_R rule) n.
Proof.
  intros Hq Hw. split; [apply length_chebpts2_R | split; assumption].
Qed.

(** The four nodes of the cubic case. *)
Lemma chebpts2_R_4 : chebpts2_R 4 = [-1; -1 / 2; 1 / 2; 1]%R.
Proof.
  unfold chebpts2_R, linspace. simpl.
  replace (- PI + 0 * ((0 - - PI) / (1 + 1 + 1)))%R with (- PI)%R by field.
  replace (- PI + 1 * ((0 - - PI) / (1 + 1 + 1)))%R with (- (2 * (PI / 3)))%R by field.
  replace (- PI + (1 + 1) * ((0 - - PI) / (1 + 1 + 1)))%R with (- (PI / 3))%R by field.
  replace (- PI + (1 + 1 + 1) * ((0 - - PI) / (1 + 1 + 1)))%R with 0%R by field.
  rewrite !cos_neg, cos_PI, cos_2PI3, cos_PI3, cos_0. reflexivity.
Qed.

(** ** Running the program on the rationals *)

Ltac qc_neq :=
  let H := fresh in
  intro H; apply (f_equal this) in H; vm_compute in H; discriminate H.

Ltac qc_notin :=
  let H := fresh in
  simpl; intros H;
  repeat (destruct H as [H | H];
          [apply (f_equal this) in H; vm_compute in H; discriminate H|]);
  exact H.

Ltac qc_nodup := repeat (constructor; [qc_notin|]); constructor.

Lemma np_Qc_shapes_2 : numpy_shapes np_Qc 2.
Proof. repeat split. Qed.

Lemma np_Qc_shapes_3 : numpy_shapes np_Qc 3.
Proof. repeat split. Qed.

Lemma np_Qc_nodes_2 : nodes_distinct np_Qc 2.
Proof. unfold nodes_distinct; simpl. qc_nodup. Qed.

Lemma np_Qc_nodes_3 : nodes_distinct np_Qc 3.
Proof. unfold nodes_distinct; simpl. qc_nodup. Qed.


Lemma np_Qc_points_2 : points_distinct np_Qc 2.
Proof. unfold points_distinct; simpl. qc_nodup. Qed.

Lemma np_Qc_weights_2 : weights_positive np_Qc 2.
Proof. unfold weights_positive; simpl. repeat constructor. Qed.

Example stiffness_at_2 :
  match compute_one_dimensional_matrices np_Qc 2 with
  | Ok (K, _, _) =>
      map (map this) K = [[1 # 2; -1 # 2]; [-1 # 2; 1 # 2]]%Q
  | Raise _ => False
  end.
Proof. vm_compute. reflexivity. Qed.

Example identity_at_3 :
  match get_e (F := Qc) 3 with
  | Ok e => map (map this) e = [[1; 0; 0]; [0; 1; 0]; [0; 0; 1]]%Q
  | Raise _ => False
  end.
Proof. vm_compute. reflexivity. Qed.

(** The first cubic basis polynomial, constant term first, and its
    derivative. *)
Example cubic_basis_coefficients :
  map this (basis_poly (chebpts2_values np_Qc 4) 0)
  = [-1 # 6; 1 # 6; 2 # 3; -2 # 3]%Q /\
  map this (polyder (basis_poly (chebpts2_values np_Qc 4) 0))
  = [1 # 6; 4 # 3; -2 # 1]%Q.
Proof. split; vm_compute; reflexivity. Qed.

(** At [q = -6/7] the program stores [-305/98] where the derivative is
    [-719/294]. *)
Example difference_is_not_derivative :
  this (entry (D_of np_Qc 4) 0 0) = (-305 # 98)%Q /\
  this (entry (D_exact np_Qc 4) 0 0) = (-719 # 294)%Q.
Proof. split; vm_compute; reflexivity. Qed.

(** ** The discretization at sizes below two *)

(** C4, as amended.  For every integer [n < 2],
    [compute_one_dimensional_matrices(n)] returns no matrices: it fails
    with the [ValueError] of one of NumPy's guards ([numpy.zeros] for
    [n < 0], [chebpts2] for [n = 0] and [n = 1]). *)
Theorem too_small_raises_ValueError {F : Type} {N : Num F}
  (np : NumPy (F := F)) (n : Z) :
  (n < 2)%Z -> compute_one_dimensional_matrices np n = Raise ValueError.
Proof.
  intros Hn. destruct (Z.lt_ge_cases n 0) as [Hneg | Hpos].
  - unfold compute_one_dimensional_matrices.
    rewrite get_e_negative by exact Hneg. reflexivity.
  - apply compute_too_small. exact Hn.
Qed.

Lemma too_small_raises_ValueError_witness :
  (1 < 2)%Z /\ compute_one_dimensional_matrices np_Qc 1 = Raise ValueError.
Proof.
  split; [lia | apply (too_small_raises_ValueError np_Qc 1); lia].
Defined.

(** C4, as stated, fails at [n = 1]: the failure is a [ValueError], not an
    [InvalidDiscretization]. *)
Lemma too_small_is_not_InvalidDiscretization :
  ~ (forall n : Z, (n < 2)%Z ->
       compute_one_dimensional_matrices np_Qc n = Raise InvalidDiscretization).
Proof.
  intros H. specialize (H 1%Z ltac:(lia)). vm_compute in H. discriminate H.
Qed.

(** ** The error stub *)

(** C10, as amended.  For every nonzero integer [n],
    [compute_error_one_d(n, exact, rhs)] returns the quotient of 1 by [n];
    at [n = 0] the division raises [ZeroDivisionError] and no value is
    returned; and for every [n] the outcome does not depend on the [exact]
    and [rhs] arguments.  The statement holds for every number type, the
    rounded quotient of binary64 included. *)
Theorem compute_error_one_d_reciprocal {F : Type} {N : Num F}
  (n : Z) (exact rhs exact' rhs' : F -> F) :
  compute_error_one_d n exact' rhs' = compute_error_one_d n exact rhs /\
  (n = 0%Z -> compute_error_one_d n exact rhs = Raise ZeroDivisionError) /\
  (n <> 0%Z -> compute_error_one_d n exact rhs = Ok (div one (of_Z n))).
Proof.
  split; [reflexivity|]. split.
  - intros Hn. subst n. reflexivity.
  - intros Hn. unfold compute_error_one_d.
    replace (n =? 0)%Z with false by (symmetry; apply Z.eqb_neq; exact Hn).
    reflexivity.
Qed.

Lemma compute_error_one_d_reciprocal_witness :
  10%Z <> 0%Z /\
  compute_error_one_d 10 (fun x => mul x x) (fun _ => qc 1 1)
  = compute_error_one_d 10 (fun x => x) (fun _ => qc 0 1) /\
  compute_error_one_d 10 (fun x => x) (fun _ => qc 0 1)
  = Ok (div one (of_Z 10)).
Proof.
  assert (H : 10%Z <> 0%Z) by lia.
  pose proof (compute_error_one_d_reciprocal 10 (fun x => x) (fun _ => qc 0 1)
                (fun x => mul x x) (fun _ => qc 1 1)) as [H1 [_ H3]].
  split; [exact H|]. split; [exact H1 | exact (H3 H)].
Defined.

(** C10, as stated, fails at [n = 0]: no value is returned there. *)
Lemma compute_error_one_d_raises_at_zero :
  ~ (forall n : Z, exists e : Qc,
       compute_error_one_d n (fun x => x) (fun x => x) = Ok e).
Proof.
  intros H. destruct (H 0%Z) as [e He]. vm_compute in He. discriminate He.
Qed.

(** In binary64 the value returned is the rounded quotient: at [n = 49]
    its product with [n] is not 1. *)
Example reciprocal_is_rounded_in_binary64 :
  match compute_error_one_d (F := PrimFloat.float) 49 (fun x => x) (fun x => x) with
  | Ok e => PrimFloat.eqb (mul (of_Z 49) e) one = false
  | Raise _ => False
  end.
Proof. vm_compute. reflexivity. Qed.

(** C3, at the failing input.  With the manufactured solution and forcing,
    [compute_error_one_d] returns [1/10] at [n = 10] and [1/20] at
    [n = 20]: doubling [n] only halves the value, and [1/20] is far above
    the unit round-off [2^-52]. *)
Theorem compute_error_one_d_is_algebraic :
  compute_error_one_d 10 exact_one_d rhs_one_d = Ok (1 / 10)%R /\
  compute_error_one_d 20 exact_one_d rhs_one_d = Ok (1 / 20)%R /\
  (/ 2 ^ 52 < 1 / 20)%R.
Proof.
  split; [|split].
  - unfold compute_error_one_d; simpl. f_equal. lra.
  - unfold compute_error_one_d; simpl. f_equal. lra.
  - lra.
Qed.

(** ** The conjugate-gradient stub *)

(** C9.  Whatever the operator, right-hand side, tolerance and iteration
    cap, [cg] returns a new array holding the contents of [x0]; every array
    of the caller, [x0] included, is left as it was; and the outcome is the
    same for any other operator, right-hand side, tolerance and cap, so
    none of them is consulted. *)
Theorem cg_returns_fresh_copy {F : Type} (matvec : addr -> St (F := F) addr)
  (b x0 : addr) (tol : F) (maxiter : Z) (h : store) (v : list F) :
  nth_error h x0 = Some v ->
  exists (x : addr) (h' : store),
    cg matvec b x0 tol maxiter h = Ok (x, h') /\
    (length h <= x)%nat /\
    x <> x0 /\
    nth_error h' x = Some v /\
    (forall a, (a < length h)%nat -> nth_error h' a = nth_error h a) /\
    (forall matvec' b' tol' maxiter',
        cg matvec' b' x0 tol' maxiter' h = cg matvec b x0 tol maxiter h).
Proof.
  intros Hv. exists (length h), (h ++ [v]).
  assert (Hx0 : (x0 < length h)%nat)
    by (apply nth_error_Some; rewrite Hv; discriminate).
  repeat split.
  - unfold cg, ndarray_copy, getitem. rewrite Hv. reflexivity.
  - lia.
  - lia.
  - rewrite nth_error_app2 by lia. rewrite Nat.sub_diag. reflexivity.
  - intros a Ha. apply nth_error_app1. exact Ha.
Qed.

Lemma cg_returns_fresh_copy_witness :
  nth_error store_b_x0 1%nat = Some [qc 0 1] /\
  exists (x : addr) (h' : store),
    cg ndarray_copy 0%nat 1%nat default_tol 10000%Z store_b_x0 = Ok (x, h') /\
    (length store_b_x0 <= x)%nat /\
    x <> 1%nat /\
    nth_error h' x = Some [qc 0 1] /\
    (forall a, (a < length store_b_x0)%nat ->
               nth_error h' a = nth_error store_b_x0 a) /\
    (forall matvec' b' tol' maxiter',
        cg matvec' b' 1%nat tol' maxiter' store_b_x0
        = cg ndarray_copy 0%nat 1%nat default_tol 10000%Z store_b_x0).
Proof.
  split; [reflexivity|].
  apply (cg_returns_fresh_copy ndarray_copy 0%nat 1%nat default_tol 10000%Z store_b_x0
           [qc 0 1]).
  reflexivity.
Defined.

(** C2, at the failing input.  For the identity operator, [b = [1]],
    [x0 = [0]] and the default tolerance, [cg] returns the array [[0]],
    whose residual has squared norm [1], above the square of the
    tolerance. *)
Theorem cg_residual_above_tolerance :
  exists (x : addr) (h' : store),
    cg ndarray_copy 0%nat 1%nat default_tol 10000%Z store_b_x0 = Ok (x, h') /\
    nth_error h' x = Some [qc 0 1] /\
    norm_sq (residual (fun v => v) [qc 1 1] [qc 0 1]) = qc 1 1 /\
    lt (mul default_tol default_tol)
       (norm_sq (residual (fun v => v) [qc 1 1] [qc 0 1])).
Proof.
  exists 2%nat, (store_b_x0 ++ [[qc 0 1]]).
  split; [reflexivity|]. split; [reflexivity|].
  split; [apply Qc_is_canon; reflexivity | reflexivity].
Qed.

(** ** The one-dimensional matrices at sizes from two on *)



(** C5, as amended.  For every [n >= 2],
    [compute_one_dimensional_matrices(n)] returns [K] and [M] that are
    symmetric up to rounding: in exact arithmetic they equal their
    transposes, entry for entry. *)
Theorem K_and_M_symmetric {F : Type} {N : Num F} {OF : OrderedField F}
  (np : NumPy (F := F)) (n : Z) :
  (2 <= n)%Z -> numpy_shapes np (Z.to_nat n) ->
  exists K M A : matrix,
    compute_one_dimensional_matrices np n = Ok (K, M, A) /\
    transpose (Z.to_nat n) K = K /\ transpose (Z.to_nat n) M = M /\
    symmetric K /\ symmetric M.
Proof.
  intros Hn Hs.
  exists (K_of np (Z.to_nat n)), (M_of np (Z.to_nat n)), (A_of np (Z.to_nat n)).
  split; [apply compute_ok; assumption|].
  split; [apply transpose_of_symmetric;
          [apply K_of_square; exact Hs | apply gram_symmetric]|].
  split; [apply transpose_of_symmetric;
          [apply M_of_square; exact Hs | apply gram_symmetric]|].
  split; apply gram_symmetric.
Qed.

Lemma K_and_M_symmetric_witness :
  (2 <= 3)%Z /\ numpy_shapes np_Qc (Z.to_nat 3) /\
  exists K M A : matrix,
    compute_one_dimensional_matrices np_Qc 3 = Ok (K, M, A) /\
    transpose (Z.to_nat 3) K = K /\ transpose (Z.to_nat 3) M = M /\
    symmetric K /\ symmetric M.
Proof.
  assert (H1 : (2 <= 3)%Z) by lia.
  assert (H2 : numpy_shapes np_Qc (Z.to_nat 3)) by exact np_Qc_shapes_3.
  split; [exact H1|]. split; [exact H2|].
  exact (K_and_M_symmetric np_Qc 3 H1 H2).
Defined.

(** C5, as stated, fails at [n = 3]: in binary64 the contraction forms
    [(D[i,q] * w[q]) * D[j,q]], and the [K] returned has
    [K[0,2] = 0.16666666666666688] and [K[2,0] = 0.16666666666666693]. *)
Lemma symmetry_is_not_exact_in_binary64 :
  exists K M A : matrix (F := PrimFloat.float),
    compute_one_dimensional_matrices np_binary64 3 = Ok (K, M, A) /\
    PrimFloat.eqb (entry K 0 2) (entry K 2 0) = false /\
    ~ symmetric K /\ transpose 3 K <> K.
Proof.
  eexists. eexists. eexists.
  split; [vm_compute; reflexivity|].
  split; [vm_compute; reflexivity|].
  split.
  - intros H. specialize (H 0%nat 2%nat). vm_compute in H.
    match type of H with
    | ?a = _ => apply (f_equal (PrimFloat.eqb a)) in H
    end.
    vm_compute in H. discriminate H.
  - intros H. apply (f_equal (fun m => entry m 0 2)) in H. vm_compute in H.
    match type of H with
    | ?a = _ => apply (f_equal (PrimFloat.eqb a)) in H
    end.
    vm_compute in H. discriminate H.
Qed.

(** The cause, on three numbers: binary64 multiplication does not
    associate. *)
Example product_order_matters_in_binary64 :
  PrimFloat.eqb
    (sum3 [b64_tenth] [b64_fifth] [b64_three_tenths])
    (sum3 [b64_three_tenths] [b64_fifth] [b64_tenth])
  = false.
Proof. vm_compute. reflexivity. Qed.

(** C6.  For every [n >= 2], on pairwise distinct nodes, the stiffness
    matrix [K] that [compute_one_dimensional_matrices(n)] returns maps the
    all-ones vector, and with it every constant vector, to the zero
    vector. *)
Theorem K_annihilates_constants {F : Type} {N : Num F} {OF : OrderedField F}
  (np : NumPy (F := F)) (n : Z) :
  (2 <= n)%Z -> numpy_shapes np (Z.to_nat n) ->
  nodes_distinct np (Z.to_nat n) ->
  exists K M A : matrix,
    compute_one_dimensional_matrices np n = Ok (K, M, A) /\
    mat_vec K (repeat one (Z.to_nat n)) = repeat zero (Z.to_nat n) /\
    forall c : F, mat_vec K (repeat c (Z.to_nat n)) = repeat zero (Z.to_nat n).
Proof.
  intros Hn Hs Hnd.
  exists (K_of np (Z.to_nat n)), (M_of np (Z.to_nat n)), (A_of np (Z.to_nat n)).
  split; [apply compute_ok; assumption|].
  split; [apply K_of_ones | intros c; apply K_of_constants];
    try assumption; lia.
Qed.

Lemma K_annihilates_constants_witness :
  (2 <= 3)%Z /\ numpy_shapes np_Qc (Z.to_nat 3) /\
  nodes_distinct np_Qc (Z.to_nat 3) /\
  exists K M A : matrix,
    compute_one_dimensional_matrices np_Qc 3 = Ok (K, M, A) /\
    mat_vec K (repeat one (Z.to_nat 3)) = repeat zero (Z.to_nat 3) /\
    forall c : Qc, mat_vec K (repeat c (Z.to_nat 3)) = repeat zero (Z.to_nat 3).
Proof.
  assert (H1 : (2 <= 3)%Z) by lia.
  assert (H2 : numpy_shapes np_Qc (Z.to_nat 3)) by exact np_Qc_shapes_3.
  assert (H3 : nodes_distinct np_Qc (Z.to_nat 3)) by exact np_Qc_nodes_3.
  split; [exact H1|]. split; [exact H2|]. split; [exact H3|].
  exact (K_annihilates_constants np_Qc 3 H1 H2 H3).
Defined.



(** ** The derivative matrix at four nodes *)

Lemma cubic_basis_0 (a : R) :
  derivative (polyval (basis_poly [-1; -1 / 2; 1 / 2; 1]%R 0)) a
  = (polyval (polyder (basis_poly [-1; -1 / 2; 1 / 2; 1]%R 0)) a - 2 / 3)%R.
Proof.
  rewrite derivative_eq.
  unfold basis_poly, lagrange_poly, lagrange_term_pure, lagrange_factor_pure,
    unit_vector.
  cbn -[Rplus Rmult Rminus Ropp Rdiv Rinv]. field.
Qed.

(** C1, at the failing input [n = 4].  On the four Chebyshev points and
    for any four quadrature points, the loops return [B] and [D], and every
    entry of row 0 of [D] is the exact derivative of the basis polynomial at
    the quadrature point minus [2/3]: [D] holds the central difference of
    step 1, which is not the derivative of a cubic. *)
Theorem D_misses_the_derivative_at_4 (rule : nat -> list R * list R) :
  numpy_shapes (np_R rule) 4 ->
  evaluation_matrices (np_R rule) 4
  = Ok (B_of (np_R rule) 4, D_of (np_R rule) 4) /\
  forall alpha : nat, (alpha < 4)%nat ->
    entry (D_of (np_R rule) 4) 0 alpha
    = (entry (D_exact (np_R rule) 4) 0 alpha - 2 / 3)%R /\
    entry (D_of (np_R rule) 4) 0 alpha <> entry (D_exact (np_R rule) 4) 0 alpha.
Proof.
  intros Hs. split.
  - apply (evaluation_matrices_ok (np_R rule) 4); [lia | exact Hs].
  - intros alpha Ha.
    assert (E : entry (D_of (np_R rule) 4) 0 alpha
                = (entry (D_exact (np_R rule) 4) 0 alpha - 2 / 3)%R).
    { rewrite entry_D_of, entry_D_exact by (try exact Hs; lia).
      change (chebpts2_values (np_R rule) 4) with (chebpts2_R 4).
      rewrite chebpts2_R_4. apply cubic_basis_0. }
    split; [exact E | rewrite E; lra].
Qed.

Lemma D_misses_the_derivative_at_4_witness :
  numpy_shapes (np_R (fun _ => leggauss_R_4)) 4 /\
  (evaluation_matrices (np_R (fun _ => leggauss_R_4)) 4
   = Ok (B_of (np_R (fun _ => leggauss_R_4)) 4,
         D_of (np_R (fun _ => leggauss_R_4)) 4) /\
   forall alpha : nat, (alpha < 4)%nat ->
     entry (D_of (np_R (fun _ => leggauss_R_4)) 4) 0 alpha
     = (entry (D_exact (np_R (fun _ => leggauss_R_4)) 4) 0 alpha - 2 / 3)%R /\
     entry (D_of (np_R (fun _ => leggauss_R_4)) 4) 0 alpha
     <> entry (D_exact (np_R (fun _ => leggauss_R_4)) 4) 0 alpha).
Proof.
  assert (H : numpy_shapes (np_R (fun _ => leggauss_R_4)) 4)
    by (repeat split).
  split; [exact H|].
  exact (D_misses_the_derivative_at_4 (fun _ => leggauss_R_4) H).
Defined.

(** ** Further properties of [get_e] and [get_basis] *)

(** X1.  For every [n >= 0], [get_e(n)] returns the [n] by [n] identity
    matrix: [n] rows of [n] entries, with 1 on the diagonal and 0
    elsewhere (the empty matrix at [n = 0]). *)
Theorem get_e_is_identity {F : Type} {N : Num F} (n : Z) :
  (0 <= n)%Z ->
  exists e : matrix (F := F),
    get_e n = Ok e /\ is_square (Z.to_nat n) e /\
    forall i j, (i < Z.to_nat n)%nat -> (j < Z.to_nat n)%nat ->
      entry e i j = if Nat.eqb i j then one else zero.
Proof.
  intros Hn. exists (identity (Z.to_nat n)).
  split; [apply get_e_ok; exact Hn|].
  split; [apply identity_square|].
  intros i j Hi Hj. rewrite entry_identity by exact Hi.
  rewrite Nat.eqb_sym. reflexivity.
Qed.

Lemma get_e_is_identity_witness :
  (0 <= 3)%Z /\
  exists e : matrix (F := Qc),
    get_e 3 = Ok e /\ is_square (Z.to_nat 3) e /\
    forall i j, (i < Z.to_nat 3)%nat -> (j < Z.to_nat 3)%nat ->
      entry e i j = if Nat.eqb i j then one else zero.
Proof.
  assert (H : (0 <= 3)%Z) by lia.
  split; [exact H | exact (get_e_is_identity 3 H)].
Defined.

(** X2.  For every negative [n], [get_e(n)] raises [ValueError]: the
    allocation of the array fails before the loop starts. *)
Theorem get_e_negative_raises {F : Type} {N : Num F} (n : Z) :
  (n < 0)%Z -> get_e (F := F) n = Raise ValueError.
Proof.
  intros Hn. unfold get_e, zeros2.
  replace (n <? 0)%Z with true by (symmetry; apply Z.ltb_lt; exact Hn).
  reflexivity.
Qed.

Lemma get_e_negative_raises_witness :
  (-1 < 0)%Z /\ get_e (F := Qc) (-1) = Raise ValueError.
Proof.
  assert (H : (-1 < 0)%Z) by lia.
  split; [exact H | exact (get_e_negative_raises (-1) H)].
Defined.

(** X3.  On pairwise distinct nodes [X], when row [i] of [e] has at least
    as many entries as there are nodes, [get_basis(n, e, X, i)] returns the
    interpolant of that row: a polynomial with at most [len(X)] coefficients
    whose value at node [X[j]] is [e[i][j]], for every [j]. *)
Theorem get_basis_interpolates {F : Type} {N : Num F} {OF : OrderedField F}
  (n : Z) (e : matrix) (X row : vector) (i : nat) :
  nth_error e i = Some row -> (1 <= length X <= length row)%nat -> NoDup X ->
  exists v : poly1d,
    get_basis n e X i = Ok v /\ (length v <= length X)%nat /\
    forall j, (j < length X)%nat -> polyval v (nth j X zero) = nth j row zero.
Proof.
  intros Hrow Hlen Hnd. exists (lagrange_poly X row).
  split; [|split].
  - unfold get_basis, getitem. rewrite Hrow. cbn [bind].
    apply lagrange_ok. lia.
  - apply length_lagrange_poly. lia.
  - intros j Hj. apply interp_at_node; assumption.
Qed.

Lemma get_basis_interpolates_witness :
  nth_error [[qc 2 1; qc 3 1; qc 5 1]] 0 = Some [qc 2 1; qc 3 1; qc 5 1] /\
  (1 <= length [qc (-1) 1; qc 0 1; qc 1 1]
   <= length [qc 2 1; qc 3 1; qc 5 1])%nat /\
  NoDup [qc (-1) 1; qc 0 1; qc 1 1] /\
  exists v : poly1d,
    get_basis 3 [[qc 2 1; qc 3 1; qc 5 1]] [qc (-1) 1; qc 0 1; qc 1 1] 0 = Ok v /\
    (length v <= length [qc (-1) 1; qc 0 1; qc 1 1])%nat /\
    forall j, (j < length [qc (-1) 1; qc 0 1; qc 1 1])%nat ->
      polyval v (nth j [qc (-1) 1; qc 0 1; qc 1 1] zero)
      = nth j [qc 2 1; qc 3 1; qc 5 1] zero.
Proof.
  assert (H1 : nth_error [[qc 2 1; qc 3 1; qc 5 1]] 0
               = Some [qc 2 1; qc 3 1; qc 5 1]) by reflexivity.
  assert (H2 : (1 <= length [qc (-1) 1; qc 0 1; qc 1 1]
                <= length [qc 2 1; qc 3 1; qc 5 1])%nat) by (simpl; lia).
  assert (H3 : NoDup [qc (-1) 1; qc 0 1; qc 1 1]) by qc_nodup.
  split; [exact H1|]. split; [exact H2|]. split; [exact H3|].
  exact (get_basis_interpolates 3 _ _ _ 0 H1 H2 H3).
Defined.

(** X4.  [get_basis(n, e, X, i)] raises [IndexError] when [e] has no row
    [i], and when row [i] has fewer entries than there are nodes. *)
Theorem get_basis_index_errors {F : Type} {N : Num F}
  (n : Z) (e : matrix) (X : vector (F := F)) (i : nat) :
  (length e <= i)%nat \/
  (exists row, nth_error e i = Some row /\ (length row < length X)%nat) ->
  get_basis n e X i = Raise IndexError.
Proof.
  intros [Hi | [row [Hrow Hlen]]]; unfold get_basis, getitem.
  - replace (nth_error e i) with (@None (list F));
      [reflexivity | symmetry; apply nth_error_None; exact Hi].
  - rewrite Hrow. cbn [bind]. apply lagrange_short_data. exact Hlen.
Qed.

Lemma get_basis_index_errors_witness :
  ((length [[qc 1 1; qc 0 1]] <= 0)%nat \/
   (exists row, nth_error [[qc 1 1; qc 0 1]] 0 = Some row /\
                (length row < length [qc (-1) 1; qc 0 1; qc 1 1])%nat)) /\
  get_basis 3 [[qc 1 1; qc 0 1]] [qc (-1) 1; qc 0 1; qc 1 1] 0
  = Raise IndexError.
Proof.
  assert (H : (length [[qc 1 1; qc 0 1]] <= 0)%nat \/
              (exists row, nth_error [[qc 1 1; qc 0 1]] 0 = Some row /\
                           (length row < length [qc (-1) 1; qc 0 1; qc 1 1])%nat)).
  { right. exists [qc 1 1; qc 0 1]. split; [reflexivity | simpl; lia]. }
  split; [exact H | exact (get_basis_index_errors 3 _ _ 0 H)].
Defined.

(** X5.  On [n >= 1] pairwise distinct nodes, the [n] polynomials that
    [get_basis] returns for the rows of [get_e(n)] add up to the constant
    1 at every point. *)
Theorem basis_sums_to_one {F : Type} {N : Num F} {OF : OrderedField F}
  (n : Z) (X : vector) :
  (1 <= n)%Z -> length X = Z.to_nat n -> NoDup X ->
  exists (e : matrix) (vs : list poly1d),
    get_e n = Ok e /\ length vs = Z.to_nat n /\
    (forall i, (i < Z.to_nat n)%nat -> get_basis n e X i = Ok (nth i vs [])) /\
    forall t : F, sum (map (fun v => polyval v t) vs) = one.
Proof.
  intros Hn HX Hnd. exists (identity (Z.to_nat n)), (basis_polys X).
  split; [apply get_e_ok; lia|].
  split; [rewrite length_basis_polys; exact HX|].
  split.
  - intros i Hi. rewrite nth_basis_polys by (rewrite HX; exact Hi).
    rewrite <- HX. apply get_basis_ok. rewrite HX. exact Hi.
  - intros t. apply sum_basis_polys; [exact Hnd | rewrite HX; lia].
Qed.

Lemma basis_sums_to_one_witness :
  (1 <= 3)%Z /\ length [qc (-1) 1; qc 0 1; qc 1 1] = Z.to_nat 3 /\
  NoDup [qc (-1) 1; qc 0 1; qc 1 1] /\
  exists (e : matrix) (vs : list poly1d),
    get_e 3 = Ok e /\ length vs = Z.to_nat 3 /\
    (forall i, (i < Z.to_nat 3)%nat ->
       get_basis 3 e [qc (-1) 1; qc 0 1; qc 1 1] i = Ok (nth i vs [])) /\
    forall t : Qc, sum (map (fun v => polyval v t) vs) = one.
Proof.
  assert (H1 : (1 <= 3)%Z) by lia.
  assert (H2 : length [qc (-1) 1; qc 0 1; qc 1 1] = Z.to_nat 3) by reflexivity.
  assert (H3 : NoDup [qc (-1) 1; qc 0 1; qc 1 1]) by qc_nodup.
  split; [exact H1|]. split; [exact H2|]. split; [exact H3|].
  exact (basis_sums_to_one 3 _ H1 H2 H3).
Defined.

(** X6.  When row [i] of [e] holds the values at the nodes of a polynomial
    [p] with no more coefficients than there are nodes (pairwise distinct),
    [get_basis(n, e, X, i)] returns a polynomial equal to [p] at every
    point. *)
Theorem get_basis_reproduces_polynomials {F : Type} {N : Num F}
  {OF : OrderedField F} (n : Z) (e : matrix) (X : vector) (p : poly1d)
  (i : nat) :
  nth_error e i = Some (map (polyval p) X) ->
  (1 <= length X)%nat -> (length p <= length X)%nat -> NoDup X ->
  exists v : poly1d,
    get_basis n e X i = Ok v /\ forall t : F, polyval v t = polyval p t.
Proof.
  intros Hrow Hlen Hp Hnd. exists (lagrange_poly X (map (polyval p) X)).
  split.
  - unfold get_basis, getitem. rewrite Hrow. cbn [bind].
    apply lagrange_ok. rewrite length_map. lia.
  - intros t. apply lagrange_poly_reproduces; assumption.
Qed.

Lemma get_basis_reproduces_polynomials_witness :
  nth_error [map (polyval [qc 1 1; qc 2 1; qc 3 1]) [qc (-1) 1; qc 0 1; qc 1 1]] 0
  = Some (map (polyval [qc 1 1; qc 2 1; qc 3 1]) [qc (-1) 1; qc 0 1; qc 1 1]) /\
  (1 <= length [qc (-1) 1; qc 0 1; qc 1 1])%nat /\
  (length [qc 1 1; qc 2 1; qc 3 1] <= length [qc (-1) 1; qc 0 1; qc 1 1])%nat /\
  NoDup [qc (-1) 1; qc 0 1; qc 1 1] /\
  exists v : poly1d,
    get_basis 3
      [map (polyval [qc 1 1; qc 2 1; qc 3 1]) [qc (-1) 1; qc 0 1; qc 1 1]]
      [qc (-1) 1; qc 0 1; qc 1 1] 0 = Ok v /\
    forall t : Qc, polyval v t = polyval [qc 1 1; qc 2 1; qc 3 1] t.
Proof.
  assert (H1 : nth_error
                 [map (polyval [qc 1 1; qc 2 1; qc 3 1]) [qc (-1) 1; qc 0 1; qc 1 1]] 0
               = Some (map (polyval [qc 1 1; qc 2 1; qc 3 1])
                           [qc (-1) 1; qc 0 1; qc 1 1])) by reflexivity.
  assert (H2 : (1 <= length [qc (-1) 1; qc 0 1; qc 1 1])%nat) by (simpl; lia).
  assert (H3 : (length [qc 1 1; qc 2 1; qc 3 1]
                <= length [qc (-1) 1; qc 0 1; qc 1 1])%nat) by (simpl; lia).
  assert (H4 : NoDup [qc (-1) 1; qc 0 1; qc 1 1]) by qc_nodup.
  split; [exact H1|]. split; [exact H2|]. split; [exact H3|]. split; [exact H4|].
  exact (get_basis_reproduces_polynomials 3 _ _ _ 0 H1 H2 H3 H4).
Defined.

(** ** Further properties of [compute_one_dimensional_matrices] *)

(** X7.  For every [n >= 2], the three matrices returned are [n] by [n],
    and every entry of [A] is the sum of the entries of [K] and [M] at the
    same place. *)
Theorem matrices_are_square {F : Type} {N : Num F} {OF : OrderedField F}
  (np : NumPy (F := F)) (n : Z) :
  (2 <= n)%Z -> numpy_shapes np (Z.to_nat n) ->
  exists K M A : matrix,
    compute_one_dimensional_matrices np n = Ok (K, M, A) /\
    is_square (Z.to_nat n) K /\ is_square (Z.to_nat n) M /\
    is_square (Z.to_nat n) A /\
    forall i j, entry A i j = add (entry K i j) (entry M i j).
Proof.
  intros Hn Hs.
  exists (K_of np (Z.to_nat n)), (M_of np (Z.to_nat n)), (A_of np (Z.to_nat n)).
  split; [apply compute_ok; assumption|].
  split; [apply K_of_square; exact Hs|].
  split; [apply M_of_square; exact Hs|].
  split; [apply A_of_square; exact Hs|].
  intros i j. unfold A_of.
  apply (entry_madd _ _ (Z.to_nat n)); [apply K_of_square | apply M_of_square];
    exact Hs.
Qed.

Lemma matrices_are_square_witness :
  (2 <= 3)%Z /\ numpy_shapes np_Qc (Z.to_nat 3) /\
  exists K M A : matrix,
    compute_one_dimensional_matrices np_Qc 3 = Ok (K, M, A) /\
    is_square (Z.to_nat 3) K /\ is_square (Z.to_nat 3) M /\
    is_square (Z.to_nat 3) A /\
    forall i j, entry A i j = add (entry K i j) (entry M i j).
Proof.
  assert (H1 : (2 <= 3)%Z) by lia.
  assert (H2 : numpy_shapes np_Qc (Z.to_nat 3)) by exact np_Qc_shapes_3.
  split; [exact H1|]. split; [exact H2|].
  exact (matrices_are_square np_Qc 3 H1 H2).
Defined.

(** X8.  For every [n >= 2], on pairwise distinct nodes, the entries of
    the returned [M] add up to the sum of the quadrature weights, those of
    [K] add up to zero, and those of [A] add up to the sum of the
    weights. *)
Theorem mass_is_conserved {F : Type} {N : Num F} {OF : OrderedField F}
  (np : NumPy (F := F)) (n : Z) :
  (2 <= n)%Z -> numpy_shapes np (Z.to_nat n) ->
  nodes_distinct np (Z.to_nat n) ->
  exists K M A : matrix,
    compute_one_dimensional_matrices np n = Ok (K, M, A) /\
    total M = sum (snd (leggauss_values np (Z.to_nat n))) /\
    total K = zero /\
    total A = sum (snd (leggauss_values np (Z.to_nat n))).
Proof.
  intros Hn Hs Hnd.
  exists (K_of np (Z.to_nat n)), (M_of np (Z.to_nat n)), (A_of np (Z.to_nat n)).
  split; [apply compute_ok; assumption|].
  split; [apply total_M_of | split; [apply total_K_of | apply total_A_of]];
    try assumption; lia.
Qed.

Lemma mass_is_conserved_witness :
  (2 <= 3)%Z /\ numpy_shapes np_Qc (Z.to_nat 3) /\
  nodes_distinct np_Qc (Z.to_nat 3) /\
  exists K M A : matrix,
    compute_one_dimensional_matrices np_Qc 3 = Ok (K, M, A) /\
    total M = sum (snd (leggauss_values np_Qc (Z.to_nat 3))) /\
    total K = zero /\
    total A = sum (snd (leggauss_values np_Qc (Z.to_nat 3))).
Proof.
  assert (H1 : (2 <= 3)%Z) by lia.
  assert (H2 : numpy_shapes np_Qc (Z.to_nat 3)) by exact np_Qc_shapes_3.
  assert (H3 : nodes_distinct np_Qc (Z.to_nat 3)) by exact np_Qc_nodes_3.
  split; [exact H1|]. split; [exact H2|]. split; [exact H3|].
  exact (mass_is_conserved np_Qc 3 H1 H2 H3).
Defined.

(** X9.  For every [n >= 2], with pairwise distinct nodes, pairwise
    distinct quadrature points and positive weights, every diagonal entry
    of the returned [M] and of the returned [A] is positive. *)
Theorem diagonals_are_positive {F : Type} {N : Num F} {OF : OrderedField F}
  (np : NumPy (F := F)) (n : Z) :
  (2 <= n)%Z -> numpy_shapes np (Z.to_nat n) ->
  nodes_distinct np (Z.to_nat n) -> points_distinct np (Z.to_nat n) ->
  weights_positive np (Z.to_nat n) ->
  exists K M A : matrix,
    compute_one_dimensional_matrices np n = Ok (K, M, A) /\
    forall i, (i < Z.to_nat n)%nat ->
      lt zero (entry M i i) /\ lt zero (entry A i i).
Proof.
  intros Hn Hs HX Hq Hw.
  exists (K_of np (Z.to_nat n)), (M_of np (Z.to_nat n)), (A_of np (Z.to_nat n)).
  split; [apply compute_ok; assumption|].
  intros i Hi.
  split; [apply diagonal_M_of_positive | apply diagonal_A_of_positive];
    try assumption; lia.
Qed.

Lemma diagonals_are_positive_witness :
  (2 <= 2)%Z /\ numpy_shapes np_Qc (Z.to_nat 2) /\
  nodes_distinct np_Qc (Z.to_nat 2) /\ points_distinct np_Qc (Z.to_nat 2) /\
  weights_positive np_Qc (Z.to_nat 2) /\
  exists K M A : matrix,
    compute_one_dimensional_matrices np_Qc 2 = Ok (K, M, A) /\
    forall i, (i < Z.to_nat 2)%nat ->
      lt zero (entry M i i) /\ lt zero (entry A i i).
Proof.
  assert (H1 : (2 <= 2)%Z) by lia.
  assert (H2 : numpy_shapes np_Qc (Z.to_nat 2)) by exact np_Qc_shapes_2.
  assert (H3 : nodes_distinct np_Qc (Z.to_nat 2)) by exact np_Qc_nodes_2.
  assert (H4 : points_distinct np_Qc (Z.to_nat 2)) by exact np_Qc_points_2.
  assert (H5 : weights_positive np_Qc (Z.to_nat 2)) by exact np_Qc_weights_2.
  split; [exact H1|]. split; [exact H2|]. split; [exact H3|].
  split; [exact H4|]. split; [exact H5|].
  exact (diagonals_are_positive np_Qc 2 H1 H2 H3 H4 H5).
Defined.

(** ** Exact integration *)

Lemma inv_sqrt3_square : (/ sqrt 3 * / sqrt 3 = 1 / 3)%R.
Proof.
  assert (H : (sqrt 3 * sqrt 3 = 3)%R) by (apply sqrt_sqrt; lra).
  assert (H0 : (sqrt 3 <> 0)%R).
  { intros E. rewrite E in H. lra. }
  rewrite <- Rinv_mult, H. lra.
Qed.

(** The 2-point Gauss-Legendre rule integrates every cubic exactly. *)
Lemma leggauss_R_2_exact :
  quadrature_exact (np_R (fun _ => leggauss_R_2)) 2.
Proof.
  intros p Hp. unfold leggauss_R_2, integrate, polyprim. cbn [np_R leggauss_values fst snd].
  pose proof inv_sqrt3_square as Hs. set (s := (/ sqrt 3)%R) in *.
  destruct p as [|c0 [|c1 [|c2 [|c3 [|c4 p]]]]]; simpl in Hp; try lia;
    cbn -[Rplus Rmult Rminus Ropp Rdiv Rinv s];
    try (pose proof (f_equal (Rmult c2) Hs) as Hc2; cbv beta in Hc2); lra.
Qed.

Lemma np_R_2_shapes : numpy_shapes (np_R (fun _ => leggauss_R_2)) 2.
Proof. apply np_R_shapes; reflexivity. Qed.

(** X10.  For every [n >= 2] and a rule that integrates polynomials of
    degree up to [2n - 1] exactly, every entry [M[i, j]] of the returned
    mass matrix is the integral over [[-1, 1]] of the product of the basis
    polynomials [i] and [j]. *)
Theorem mass_matrix_is_exact {F : Type} {N : Num F} {OF : OrderedField F}
  (np : NumPy (F := F)) (n : Z) :
  (2 <= n)%Z -> numpy_shapes np (Z.to_nat n) ->
  quadrature_exact np (Z.to_nat n) ->
  exists K M A : matrix,
    compute_one_dimensional_matrices np n = Ok (K, M, A) /\
    forall i j, (i < Z.to_nat n)%nat -> (j < Z.to_nat n)%nat ->
      entry M i j
      = integrate (polymul (basis_poly (chebpts2_values np (Z.to_nat n)) i)
                           (basis_poly (chebpts2_values np (Z.to_nat n)) j)).
Proof.
  intros Hn Hs Hex.
  exists (K_of np (Z.to_nat n)), (M_of np (Z.to_nat n)), (A_of np (Z.to_nat n)).
  split; [apply compute_ok; assumption|].
  intros i j Hi Hj. apply entry_M_of_exact; try assumption. lia.
Qed.

Lemma mass_matrix_is_exact_witness :
  (2 <= 2)%Z /\ numpy_shapes (np_R (fun _ => leggauss_R_2)) (Z.to_nat 2) /\
  quadrature_exact (np_R (fun _ => leggauss_R_2)) (Z.to_nat 2) /\
  exists K M A : matrix,
    compute_one_dimensional_matrices (np_R (fun _ => leggauss_R_2)) 2
    = Ok (K, M, A) /\
    forall i j, (i < Z.to_nat 2)%nat -> (j < Z.to_nat 2)%nat ->
      entry M i j
      = integrate
          (polymul
             (basis_poly
                (chebpts2_values (np_R (fun _ => leggauss_R_2)) (Z.to_nat 2)) i)
             (basis_poly
                (chebpts2_values (np_R (fun _ => leggauss_R_2)) (Z.to_nat 2)) j)).
Proof.
  assert (H1 : (2 <= 2)%Z) by lia.
  assert (H2 : numpy_shapes (np_R (fun _ => leggauss_R_2)) (Z.to_nat 2))
    by exact np_R_2_shapes.
  assert (H3 : quadrature_exact (np_R (fun _ => leggauss_R_2)) (Z.to_nat 2))
    by exact leggauss_R_2_exact.
  split; [exact H1|]. split; [exact H2|]. split; [exact H3|].
  exact (mass_matrix_is_exact (np_R (fun _ => leggauss_R_2)) 2 H1 H2 H3).
Defined.

(** X11.  For [n = 2] and [n = 3] the returned [K] is the weighted Gram
    matrix of the exact derivatives of the basis polynomials at the
    quadrature points; and with a rule that integrates polynomials of
    degree up to [2n - 1] exactly, every entry [K[i, j]] is the integral
    over [[-1, 1]] of the product of the derivatives of the basis
    polynomials [i] and [j]. *)
Theorem stiffness_matrix_is_exact_up_to_3 {F : Type} {N : Num F}
  {OF : OrderedField F} (np : NumPy (F := F)) (n : Z) :
  (2 <= n <= 3)%Z -> numpy_shapes np (Z.to_nat n) ->
  exists K M A : matrix,
    compute_one_dimensional_matrices np n = Ok (K, M, A) /\
    K = gram (D_exact np (Z.to_nat n)) (snd (leggauss_values np (Z.to_nat n))) /\
    (quadrature_exact np (Z.to_nat n) ->
     forall i j, (i < Z.to_nat n)%nat -> (j < Z.to_nat n)%nat ->
       entry K i j
       = integrate
           (polymul
              (polyder (basis_poly (chebpts2_values np (Z.to_nat n)) i))
              (polyder (basis_poly (chebpts2_values np (Z.to_nat n)) j)))).
Proof.
  intros Hn Hs.
  exists (K_of np (Z.to_nat n)), (M_of np (Z.to_nat n)), (A_of np (Z.to_nat n)).
  split; [apply compute_ok; try assumption; lia|].
  split.
  - unfold K_of. rewrite D_of_is_exact by (try assumption; lia). reflexivity.
  - intros Hex i j Hi Hj. apply entry_K_of_exact; try assumption. lia.
Qed.

Lemma stiffness_matrix_is_exact_up_to_3_witness :
  (2 <= 2 <= 3)%Z /\ numpy_shapes (np_R (fun _ => leggauss_R_2)) (Z.to_nat 2) /\
  exists K M A : matrix,
    compute_one_dimensional_matrices (np_R (fun _ => leggauss_R_2)) 2
    = Ok (K, M, A) /\
    K = gram (D_exact (np_R (fun _ => leggauss_R_2)) (Z.to_nat 2))
             (snd (leggauss_values (np_R (fun _ => leggauss_R_2)) (Z.to_nat 2))) /\
    (quadrature_exact (np_R (fun _ => leggauss_R_2)) (Z.to_nat 2) ->
     forall i j, (i < Z.to_nat 2)%nat -> (j < Z.to_nat 2)%nat ->
       entry K i j
       = integrate
           (polymul
              (polyder
                 (basis_poly
                    (chebpts2_values (np_R (fun _ => leggauss_R_2)) (Z.to_nat 2)) i))
              (polyder
                 (basis_poly
                    (chebpts2_values (np_R (fun _ => leggauss_R_2)) (Z.to_nat 2)) j)))).
Proof.
  assert (H1 : (2 <= 2 <= 3)%Z) by lia.
  assert (H2 : numpy_shapes (np_R (fun _ => leggauss_R_2)) (Z.to_nat 2))
    by exact np_R_2_shapes.
  split; [exact H1|]. split; [exact H2|].
  exact (stiffness_matrix_is_exact_up_to_3 (np_R (fun _ => leggauss_R_2)) 2 H1 H2).
Defined.

(** ** Further properties of the error stub *)

(** X12.  In exact arithmetic, for integers [0 < n < m],
    [compute_error_one_d] returns at [m] a positive value strictly below
    the one it returns at [n].  (Rounding is not covered: in binary64
    neighbouring quotients merge from about [2^53] on, see
    [binary64_merges_neighbours].) *)
Theorem compute_error_one_d_decreases {F : Type} {N : Num F}
  {OF : OrderedField F} (n m : Z) (exact rhs : F -> F) :
  (0 < n < m)%Z ->
  exists en em : F,
    compute_error_one_d n exact rhs = Ok en /\
    compute_error_one_d m exact rhs = Ok em /\
    lt zero em /\ lt em en.
Proof.
  intros [Hn Hnm]. exists (div one (of_Z n)), (div one (of_Z m)).
  unfold compute_error_one_d.
  replace (n =? 0)%Z with false by (symmetry; apply Z.eqb_neq; lia).
  replace (m =? 0)%Z with false by (symmetry; apply Z.eqb_neq; lia).
  split; [reflexivity|]. split; [reflexivity|]. split.
  - apply reciprocal_pos. apply of_Z_pos. lia.
  - apply reciprocal_decreasing; [apply of_Z_pos; lia | apply of_Z_lt; lia].
Qed.

Lemma compute_error_one_d_decreases_witness :
  (0 < 10 < 19)%Z /\
  exists en em : Qc,
    compute_error_one_d 10 (fun x => x) (fun x => x) = Ok en /\
    compute_error_one_d 19 (fun x => x) (fun x => x) = Ok em /\
    lt zero em /\ lt em en.
Proof.
  assert (H : (0 < 10 < 19)%Z) by lia.
  split; [exact H|].
  exact (compute_error_one_d_decreases 10 19 (fun x => x) (fun x => x) H).
Defined.

(** X13.  For every negative integer [n], [compute_error_one_d] returns a
    value and raises nothing: the argument is not validated.  In exact
    arithmetic that value is negative.  (Rounding is not covered: in
    binary64 the quotient underflows to [-0.0] for huge [|n|], see
    [binary64_underflows_to_zero].) *)
Theorem compute_error_one_d_negative {F : Type} {N : Num F}
  {OF : OrderedField F} (n : Z) (exact rhs : F -> F) :
  (n < 0)%Z ->
  exists e : F, compute_error_one_d n exact rhs = Ok e /\ lt e zero.
Proof.
  intros Hn. exists (div one (of_Z n)). unfold compute_error_one_d.
  replace (n =? 0)%Z with false by (symmetry; apply Z.eqb_neq; lia).
  split; [reflexivity|]. apply reciprocal_neg. apply of_Z_neg. exact Hn.
Qed.

Lemma compute_error_one_d_negative_witness :
  (-4 < 0)%Z /\
  exists e : Qc,
    compute_error_one_d (-4) (fun x => x) (fun x => x) = Ok e /\ lt e zero.
Proof.
  assert (H : (-4 < 0)%Z) by lia.
  split; [exact H|].
  exact (compute_error_one_d_negative (-4) (fun x => x) (fun x => x) H).
Defined.

(** What rounding does to the two statements above. *)
Example binary64_merges_neighbours :
  match compute_error_one_d (F := PrimFloat.float) (2 ^ 54) (fun x => x) (fun x => x),
        compute_error_one_d (F := PrimFloat.float) (2 ^ 54 + 1) (fun x => x) (fun x => x)
  with
  | Ok en, Ok em => PrimFloat.eqb em en = true
  | _, _ => False
  end.
Proof. vm_compute. reflexivity. Qed.

Example binary64_underflows_to_zero :
  match compute_error_one_d (F := PrimFloat.float) (- 10 ^ 400)
          (fun x => x) (fun x => x) with
  | Ok e => PrimFloat.ltb e zero = false
  | Raise _ => False
  end.
Proof. vm_compute. reflexivity. Qed.

(** On the sizes the script plots, 10 to 19, the binary64 values do
    decrease strictly. *)
Example script_errors_decrease_in_binary64 :
  forallb
    (fun n =>
       match compute_error_one_d (F := PrimFloat.float) (Z.of_nat n)
               (fun x => x) (fun x => x),
             compute_error_one_d (F := PrimFloat.float) (Z.of_nat (S n))
               (fun x => x) (fun x => x)
       with
       | Ok en, Ok em => PrimFloat.ltb em en && PrimFloat.ltb zero em
       | _, _ => false
       end)
    (seq 10 9)
  = true.
Proof. vm_compute. reflexivity. Qed.

(** ** Further properties of the conjugate-gradient stub *)

(** X14.  The array that [cg] returns shares nothing with the caller's
    arrays: overwriting it afterwards changes the returned array and leaves
    every array of the caller, [x0] included, as it was. *)
Theorem cg_result_is_not_aliased {F : Type}
  (matvec : addr -> St (F := F) addr) (b x0 : addr) (tol : F) (maxiter : Z)
  (h : store) (v : list F) :
  nth_error h x0 = Some v ->
  exists (x : addr) (h' : store),
    cg matvec b x0 tol maxiter h = Ok (x, h') /\
    forall v' : list F,
      nth_error (store_write h' x v') x = Some v' /\
      nth_error (store_write h' x v') x0 = Some v /\
      forall a, (a < length h)%nat ->
        nth_error (store_write h' x v') a = nth_error h a.
Proof.
  intros Hv. exists (length h), (h ++ [v]).
  assert (Hx0 : (x0 < length h)%nat)
    by (apply nth_error_Some; rewrite Hv; discriminate).
  split; [unfold cg, ndarray_copy, getitem; rewrite Hv; reflexivity|].
  intros v'. unfold store_write. rewrite replace_nth_app_mid.
  split; [rewrite nth_error_app2 by lia; rewrite Nat.sub_diag; reflexivity|].
  split; [rewrite nth_error_app1 by exact Hx0; exact Hv|].
  intros a Ha. apply nth_error_app1. exact Ha.
Qed.

Lemma cg_result_is_not_aliased_witness :
  nth_error store_b_x0 1%nat = Some [qc 0 1] /\
  exists (x : addr) (h' : store),
    cg ndarray_copy 0%nat 1%nat default_tol 10000%Z store_b_x0 = Ok (x, h') /\
    forall v' : list Qc,
      nth_error (store_write h' x v') x = Some v' /\
      nth_error (store_write h' x v') 1%nat = Some [qc 0 1] /\
      forall a, (a < length store_b_x0)%nat ->
        nth_error (store_write h' x v') a = nth_error store_b_x0 a.
Proof.
  assert (H : nth_error store_b_x0 1%nat = Some [qc 0 1]) by reflexivity.
  split; [exact H|].
  exact (cg_result_is_not_aliased ndarray_copy 0%nat 1%nat default_tol 10000%Z
           store_b_x0 [qc 0 1] H).
Defined.

(** X15.  Calling [cg] on the array a first call returned gives a third
    array: the two results and [x0] are three different arrays with the
    same contents, and the store has grown by exactly two arrays. *)
Theorem cg_twice {F : Type}
  (matvec matvec' : addr -> St (F := F) addr) (b b' x0 : addr) (tol tol' : F)
  (maxiter maxiter' : Z) (h : store) (v : list F) :
  nth_error h x0 = Some v ->
  exists (x1 x2 : addr) (h1 h2 : store),
    cg matvec b x0 tol maxiter h = Ok (x1, h1) /\
    cg matvec' b' x1 tol' maxiter' h1 = Ok (x2, h2) /\
    x1 <> x0 /\ x2 <> x0 /\ x2 <> x1 /\
    nth_error h2 x0 = Some v /\ nth_error h2 x1 = Some v /\
    nth_error h2 x2 = Some v /\
    length h2 = (length h + 2)%nat.
Proof.
  intros Hv. exists (length h), (S (length h)), (h ++ [v]), ((h ++ [v]) ++ [v]).
  assert (Hx0 : (x0 < length h)%nat)
    by (apply nth_error_Some; rewrite Hv; discriminate).
  assert (H1 : nth_error (h ++ [v]) (length h) = Some v)
    by (rewrite nth_error_app2 by lia; rewrite Nat.sub_diag; reflexivity).
  split; [unfold cg, ndarray_copy, getitem; rewrite Hv; reflexivity|].
  split; [unfold cg, ndarray_copy, getitem; rewrite H1; cbn [bind];
          rewrite length_app, Nat.add_1_r; reflexivity|].
  split; [lia|]. split; [lia|]. split; [lia|].
  split; [rewrite <- app_assoc; rewrite nth_error_app1 by exact Hx0; exact Hv|].
  split; [rewrite nth_error_app1 by (rewrite length_app; simpl; lia); exact H1|].
  split; [rewrite nth_error_app2 by (rewrite length_app; simpl; lia);
          rewrite length_app, Nat.add_1_r, Nat.sub_diag; reflexivity|].
  rewrite !length_app. simpl. lia.
Qed.

Lemma cg_twice_witness :
  nth_error store_b_x0 1%nat = Some [qc 0 1] /\
  exists (x1 x2 : addr) (h1 h2 : store),
    cg ndarray_copy 0%nat 1%nat default_tol 10000%Z store_b_x0 = Ok (x1, h1) /\
    cg ndarray_copy 0%nat x1 default_tol 5%Z h1 = Ok (x2, h2) /\
    x1 <> 1%nat /\ x2 <> 1%nat /\ x2 <> x1 /\
    nth_error h2 1%nat = Some [qc 0 1] /\ nth_error h2 x1 = Some [qc 0 1] /\
    nth_error h2 x2 = Some [qc 0 1] /\
    length h2 = (length store_b_x0 + 2)%nat.
Proof.
  assert (H : nth_error store_b_x0 1%nat = Some [qc 0 1]) by reflexivity.
  split; [exact H|].
  exact (cg_twice ndarray_copy ndarray_copy 0%nat 0%nat 1%nat default_tol
           default_tol 10000%Z 5%Z store_b_x0 [qc 0 1] H).
Defined.

(** ** The manufactured solution *)

(** X16.  [rhs_one_d] is the forcing for which [exact_one_d] solves the
    problem: at every [x], [exact_one_d] has derivative
    [- pi sin(pi x)] and second derivative [- pi^2 cos(pi x)], so that
    [- u'' + u = rhs_one_d]; and the derivative vanishes at both ends of
    [[-1, 1]] (the homogeneous Neumann condition). *)
Theorem manufactured_solution_solves_the_problem :
  (forall x : R, derivable_pt_lim exact_one_d x (exact_one_d_prime x)) /\
  (forall x : R, derivable_pt_lim exact_one_d_prime x (exact_one_d_second x)) /\
  (forall x : R, (- exact_one_d_second x + exact_one_d x = rhs_one_d x)%R) /\
  exact_one_d_prime (-1) = 0%R /\ exact_one_d_prime 1 = 0%R.
Proof.
  assert (Hlin : forall x : R, derivable_pt_lim (fun y => (PI * y)%R) x PI).
  { intros x.
    pose proof (derivable_pt_lim_scal id PI x 1 (derivable_pt_lim_id x)) as H.
    replace (PI * 1)%R with PI in H by ring. exact H. }
  split; [|split; [|split; [|split]]].
  - intros x. unfold exact_one_d_prime.
    replace (- PI * sin (PI * x))%R with (- sin (PI * x) * PI)%R by ring.
    apply (derivable_pt_lim_comp (fun y => (PI * y)%R) cos x PI (- sin (PI * x))).
    + apply Hlin.
    + apply derivable_pt_lim_cos.
  - intros x. unfold exact_one_d_second.
    replace (- PI ^ 2 * cos (PI * x))%R with (- PI * (cos (PI * x) * PI))%R by ring.
    apply (derivable_pt_lim_scal (fun y => sin (PI * y)) (- PI) x
             (cos (PI * x) * PI)).
    apply (derivable_pt_lim_comp (fun y => (PI * y)%R) sin x PI (cos (PI * x))).
    + apply Hlin.
    + apply derivable_pt_lim_sin.
  - intros x. unfold exact_one_d_second, exact_one_d, rhs_one_d. ring.
  - unfold exact_one_d_prime.
    replace (PI * -1)%R with (- PI)%R by ring. rewrite sin_neg, sin_PI. ring.
  - unfold exact_one_d_prime.
    replace (PI * 1)%R with PI by ring. rewrite sin_PI. ring.
Qed.

(** ** The node set *)





